(** * micom.problems: cooperative tradeoff and species knockouts

    A shallow embedding of [src/micom/problems.py].  The community model is
    a record holding the parts of the optimisation problem the drivers touch
    (bounds of the [community_objective] variable, the per-member
    [objective_<species>] constraints, the reactions, the objective
    expression, the modification marker and the stack of reversal contexts).
    Python floats are idealised as rationals ([Q]); table cells additionally
    have infinities and not-a-number.  The LP/QP solver is a parameter. *)

From Stdlib Require Import QArith Qfield String List Sorting Permutation Lia Bool.
From stdpp Require Import base list.
Import ListNotations.

Local Open Scope string_scope.
Local Open Scope list_scope.

(** ** Numbers *)

(** A cell of a pandas table: a finite number, a signed infinity or NaN.
    Signed zeros and rounding are not represented. *)
Inductive fval :=
  | Fin (q : Q)
  | Inf (negative : bool)
  | NaN.

Definition is_nan (x : fval) : bool :=
  match x with NaN => true | _ => false end.

Definition Qsign_neg (q : Q) : bool := (Qnum q <? 0)%Z.
Definition Qis_zero (q : Q) : bool := (Qnum q =? 0)%Z.

(** [x - y] on cells. *)
Definition fsub (x y : fval) : fval :=
  match x, y with
  | NaN, _ | _, NaN => NaN
  | Fin a, Fin b => Fin (a - b)
  | Fin _, Inf s => Inf (negb s)
  | Inf s, Fin _ => Inf s
  | Inf s, Inf t => if Bool.eqb s t then NaN else Inf s
  end.

(** [x / y] on cells; a finite non-zero number over zero is an infinity,
    zero over zero is NaN. *)
Definition fdiv (x y : fval) : fval :=
  match x, y with
  | NaN, _ | _, NaN => NaN
  | Fin a, Fin b =>
      if Qis_zero b then (if Qis_zero a then NaN else Inf (Qsign_neg a))
      else Fin (a / b)
  | Fin _, Inf _ => Fin 0
  | Inf s, Fin b => Inf (xorb s (Qsign_neg b))
  | Inf _, Inf _ => NaN
  end.

(** ** Symbolic expressions (optlang / sympy) *)

Inductive Expr :=
  | Zero
  | ENum (q : Q)
  | ESym (name : string)
  | EAdd (a b : Expr)
  | EMul (a b : Expr)
  | ENeg (a : Expr)
  | ESquare (a : Expr).

Fixpoint eval (rho : string -> Q) (e : Expr) : Q :=
  match e with
  | Zero => 0
  | ENum q => q
  | ESym x => rho x
  | EAdd a b => eval rho a + eval rho b
  | EMul a b => eval rho a * eval rho b
  | ENeg a => - eval rho a
  | ESquare a => eval rho a * eval rho a
  end.

(** A polynomial in expanded form: a list of monomials, each a coefficient
    and the symbols it multiplies. *)
Definition monomial : Type := Q * list string.
Definition poly : Type := list monomial.

Definition mono_mul (m1 m2 : monomial) : monomial :=
  ((fst m1 * fst m2)%Q, snd m1 ++ snd m2).

Definition poly_mul (p q : poly) : poly :=
  flat_map (fun m1 => map (mono_mul m1) q) p.

Definition poly_neg (p : poly) : poly :=
  map (fun m => ((- fst m)%Q, snd m)) p.

Fixpoint to_poly (e : Expr) : poly :=
  match e with
  | Zero => []
  | ENum q => [(q, [])]
  | ESym x => [(1%Q, [x])]
  | EAdd a b => to_poly a ++ to_poly b
  | EMul a b => poly_mul (to_poly a) (to_poly b)
  | ENeg a => poly_neg (to_poly a)
  | ESquare a => poly_mul (to_poly a) (to_poly a)
  end.

Definition mono_expr (m : monomial) : Expr :=
  fold_left (fun acc x => EMul acc (ESym x)) (snd m) (ENum (fst m)).

Definition of_poly (p : poly) : Expr :=
  fold_left (fun acc m => EAdd acc (mono_expr m)) p Zero.

(** [e.expand()]: products and powers are distributed over sums.  Like terms
    are left unmerged, which does not change the value of the expression. *)
Definition expand (e : Expr) : Expr := of_poly (to_poly e).

(** ** The optimisation model *)

(** An optlang variable with its bounds ([None] is unbounded). *)
Record OptVar := {
  v_name : string;
  v_lb : option Q;
  v_ub : option Q
}.

Record Constraint := {
  c_name : string;
  c_lb : option Q;
  c_ub : option Q;
  c_variables : list OptVar
}.

Record Reaction := {
  r_id : string;
  community_id : string;
  r_lb : Q;
  r_ub : Q
}.

(** An entry of a cobra [HistoryManager]: a recorded reversal. *)
Inductive Undo :=
  | UResetMinCommunityGrowth
  | USetObjective (e : Expr)
  | USetModification (m : option string)
  | USetConstraintLb (name : string) (lb : option Q)
  | USetReactionBounds (i : nat) (lb ub : Q).

Record Community := {
  id : string;
  species : list string;
  (** [variables.community_objective.lb] and [.ub] *)
  co_lb : option Q;
  co_ub : option Q;
  constraints : list Constraint;
  reactions : list Reaction;
  objective : Expr;
  modification : option string;
  (** [_contexts]: innermost context first, each with its newest entry first *)
  contexts : list (list Undo)
}.

Definition set_co_lb (lb : option Q) (m : Community) : Community :=
  {| id := id m; species := species m; co_lb := lb; co_ub := co_ub m;
     constraints := constraints m; reactions := reactions m;
     objective := objective m; modification := modification m;
     contexts := contexts m |}.

Definition set_co_ub (ub : option Q) (m : Community) : Community :=
  {| id := id m; species := species m; co_lb := co_lb m; co_ub := ub;
     constraints := constraints m; reactions := reactions m;
     objective := objective m; modification := modification m;
     contexts := contexts m |}.

Definition set_constraints (cs : list Constraint) (m : Community) : Community :=
  {| id := id m; species := species m; co_lb := co_lb m; co_ub := co_ub m;
     constraints := cs; reactions := reactions m;
     objective := objective m; modification := modification m;
     contexts := contexts m |}.

Definition set_reactions (rs : list Reaction) (m : Community) : Community :=
  {| id := id m; species := species m; co_lb := co_lb m; co_ub := co_ub m;
     constraints := constraints m; reactions := rs;
     objective := objective m; modification := modification m;
     contexts := contexts m |}.

Definition set_objective_raw (e : Expr) (m : Community) : Community :=
  {| id := id m; species := species m; co_lb := co_lb m; co_ub := co_ub m;
     constraints := constraints m; reactions := reactions m;
     objective := e; modification := modification m;
     contexts := contexts m |}.

Definition set_modification_raw (mo : option string) (m : Community) : Community :=
  {| id := id m; species := species m; co_lb := co_lb m; co_ub := co_ub m;
     constraints := constraints m; reactions := reactions m;
     objective := objective m; modification := mo;
     contexts := contexts m |}.

Definition set_contexts (cx : list (list Undo)) (m : Community) : Community :=
  {| id := id m; species := species m; co_lb := co_lb m; co_ub := co_ub m;
     constraints := constraints m; reactions := reactions m;
     objective := objective m; modification := modification m;
     contexts := cx |}.

(** ** Reversal contexts (cobra's [with model:] and [HistoryManager]) *)

(** [reset_min_community_growth(com)] *)
Definition reset_min_community_growth (m : Community) : Community :=
  set_co_ub None (set_co_lb (Some 0%Q) m).

Fixpoint set_constraint_lb (name : string) (lb : option Q)
    (cs : list Constraint) : list Constraint :=
  match cs with
  | [] => []
  | c :: cs' =>
      if String.eqb (c_name c) name
      then {| c_name := c_name c; c_lb := lb; c_ub := c_ub c;
              c_variables := c_variables c |} :: cs'
      else c :: set_constraint_lb name lb cs'
  end.

Definition set_reaction_bounds (i : nat) (lb ub : Q)
    (rs : list Reaction) : list Reaction :=
  alter (fun r => {| r_id := r_id r; community_id := community_id r;
                     r_lb := lb; r_ub := ub |}) i rs.

Definition run_undo (u : Undo) (m : Community) : Community :=
  match u with
  | UResetMinCommunityGrowth => reset_min_community_growth m
  | USetObjective e => set_objective_raw e m
  | USetModification mo => set_modification_raw mo m
  | USetConstraintLb name lb =>
      set_constraints (set_constraint_lb name lb (constraints m)) m
  | USetReactionBounds i lb ub =>
      set_reactions (set_reaction_bounds i lb ub (reactions m)) m
  end.

(** [HistoryManager.reset]: entries are run newest first. *)
Definition undo_all (h : list Undo) (m : Community) : Community :=
  fold_left (fun acc u => run_undo u acc) h m.

(** [get_context(model)] followed by [context(f)], when a context is active *)
Definition record_undo (u : Undo) (m : Community) : Community :=
  match contexts m with
  | [] => m
  | h :: rest => set_contexts ((u :: h) :: rest) m
  end.

(** [Model.__enter__] *)
Definition enter (m : Community) : Community :=
  set_contexts ([] :: contexts m) m.

(** [Model.__exit__]: pop the innermost context and reset it. *)
Definition exit (m : Community) : Community :=
  match contexts m with
  | [] => m
  | h :: rest => undo_all h (set_contexts rest m)
  end.

(** [model.objective = e] (cobra's context-aware setter) *)
Definition set_objective (e : Expr) (m : Community) : Community :=
  set_objective_raw e (record_undo (USetObjective (objective m)) m).

(** Modelled from the spec: the modification marker of [micom.community]
    (not in the sources at hand) is a field of the model that is written
    and cleared at the boundaries of the scoped block that installed it. *)
Definition set_modification (mo : option string) (m : Community) : Community :=
  set_modification_raw mo (record_undo (USetModification (modification m)) m).

(** [reaction.knock_out()] on the reaction at position [i] *)
Definition knock_out (i : nat) (m : Community) : Community :=
  match reactions m !! i with
  | None => m
  | Some r =>
      set_reactions (set_reaction_bounds i 0 0 (reactions m))
        (record_undo (USetReactionBounds i (r_lb r) (r_ub r)) m)
  end.

(** ** Solutions, tables and the object store *)

(** A pandas Series: labelled cells, in index order. *)
Definition Series : Type := list (string * fval).

Definition labels (s : Series) : list string := map fst s.

Fixpoint series_get (k : string) (s : Series) : option fval :=
  match s with
  | [] => None
  | (k', x) :: s' => if String.eqb k' k then Some x else series_get k s'
  end.

Definition mem_label (k : string) (ks : list string) : bool :=
  existsb (String.eqb k) ks.

(** Element-wise arithmetic of two Series, aligned by label; a label that
    only one operand has yields NaN.  (For operands with the same index,
    the only case the drivers produce, the result has that index.) *)
Definition series_binop (f : fval -> fval -> fval) (a b : Series) : Series :=
  map (fun kx => (fst kx,
                  match series_get (fst kx) b with
                  | Some y => f (snd kx) y
                  | None => NaN
                  end)) a
  ++ map (fun ky => (fst ky, NaN))
         (List.filter (fun ky => negb (mem_label (fst ky) (labels a))) b).

Definition series_sub : Series -> Series -> Series := series_binop fsub.
Definition series_div : Series -> Series -> Series := series_binop fdiv.

Definition OPTIMAL : string := "optimal".

(** A Solution object: its status and the address of its
    [members["growth_rate"]] Series in the store. *)
Record Solution := {
  status : string;
  members_growth_rate : nat
}.

(** What a solve computes, before it is made into an object. *)
Record SolverResult := {
  sr_status : string;
  sr_growth_rate : Series
}.

(** The external solving primitives, as functions of the model state. *)
Class Solver := {
  (** [micom.util.optimize_with_retry]: the optimal objective value, or
      [None] when no attempt reaches optimal status *)
  solver_optimize_with_retry : Community -> option Q;
  (** [micom.solution.solve(community, fluxes, pfba)] *)
  solver_solve : Community -> bool -> bool -> SolverResult;
  (** [community.optimize()] *)
  solver_optimize : Community -> SolverResult;
  (** [micom.solution.crossover(community, sol)] *)
  solver_crossover : Community -> SolverResult -> SolverResult
}.

Inductive Event :=
  | EvOptimizeWithRetry (m : Community) (message : string)
  | EvSolve (m : Community) (fluxes pfba : bool) (sol : Solution)
  | EvOptimize (m : Community) (sol : Solution)
  | EvCrossover (m : Community) (arg sol : Solution).

Inductive PyError :=
  | AlreadyModifiedError
  | OptimizationError (message : string)
  | KeyError (key : string)
  | TypeError
  | AttributeError
  | ValueError.

(** The state the drivers run in: the one community model, the store of
    Series objects, and the log of solver calls. *)
Record World := {
  com : Community;
  heap : list Series;
  trace : list Event
}.

Inductive Result (A : Type) :=
  | Ok (a : A)
  | Raise (e : PyError).
Arguments Ok {A} a.
Arguments Raise {A} e.

(** Computations that change the world and may raise; the world survives
    a raise, as it does in Python. *)
Definition Py (A : Type) : Type := World -> Result A * World.

#[export] Instance Py_ret : MRet Py := fun A a w => (Ok a, w).
#[export] Instance Py_bind : MBind Py := fun A B f c w =>
  match c w with
  | (Ok a, w') => f a w'
  | (Raise e, w') => (Raise e, w')
  end.

Definition raise {A} (e : PyError) : Py A := fun w => (Raise e, w).

Definition get_model : Py Community := fun w => (Ok (com w), w).

Definition update_model (f : Community -> Community) : Py unit := fun w =>
  (Ok tt, {| com := f (com w); heap := heap w; trace := trace w |}).

Definition log (ev : Event) : Py unit := fun w =>
  (Ok tt, {| com := com w; heap := heap w; trace := trace w ++ [ev] |}).

(** A new Series object. *)
Definition alloc (s : Series) : Py nat := fun w =>
  (Ok (length (heap w)),
   {| com := com w; heap := heap w ++ [s]; trace := trace w |}).

Definition deref (h : list Series) (l : nat) : Series := default [] (h !! l).

Definition read (l : nat) : Py Series := fun w => (Ok (deref (heap w) l), w).

(** In-place update of a Series object. *)
Definition write (l : nat) (s : Series) : Py unit := fun w =>
  (Ok tt, {| com := com w; heap := <[l := s]> (heap w); trace := trace w |}).

(** [with community as com: body] *)
Definition with_model {A} (body : Py A) : Py A := fun w =>
  let w1 := {| com := enter (com w); heap := heap w; trace := trace w |} in
  let (r, w2) := body w1 in
  (r, {| com := exit (com w2); heap := heap w2; trace := trace w2 |}).

(** ** Collaborators from [micom.util] and [micom.solution] *)

(** ["objective_" + sp] *)
Definition objective_name (sp : string) : string := "objective_" ++ sp.
Arguments objective_name : simpl never.

Fixpoint find_constraint (name : string) (cs : list Constraint)
    : option Constraint :=
  match cs with
  | [] => None
  | c :: cs' => if String.eqb (c_name c) name then Some c
                else find_constraint name cs'
  end.

(** [community.constraints[name]] *)
Definition get_constraint (name : string) : Py Constraint :=
  m ← get_model;
  match find_constraint name (constraints m) with
  | Some c => mret c
  | None => raise (KeyError name)
  end.

(** Modelled from the spec: [check_modification] of [micom.util] (not in
    the sources at hand) fails with [AlreadyModifiedError] if the model
    already carries an active modification marker. *)
Definition check_modification : Py unit :=
  m ← get_model;
  match modification m with
  | None => mret tt
  | Some _ => raise AlreadyModifiedError
  end.

(** A minimum-growth specification: one scalar for all members, or a
    per-member mapping. *)
Inductive MinGrowthSpec :=
  | MGScalar (q : Q)
  | MGPerMember (entries : list (string * Q)).

Fixpoint lookup_growth (sp : string) (entries : list (string * Q)) : option Q :=
  match entries with
  | [] => None
  | (k, q) :: rest => if String.eqb k sp then Some q else lookup_growth sp rest
  end.

(** Modelled from the spec: [_format_min_growth] of [micom.util] (not in
    the sources at hand) normalises a scalar or per-member specification
    into a per-member mapping with one entry per member. *)
Fixpoint _format_min_growth (min_growth : MinGrowthSpec)
    (members : list string) : Py (list (string * Q)) :=
  match members with
  | [] => mret []
  | sp :: rest =>
      match min_growth with
      | MGScalar q =>
          tl ← _format_min_growth min_growth rest; mret ((sp, q) :: tl)
      | MGPerMember entries =>
          match lookup_growth sp entries with
          | Some q =>
              tl ← _format_min_growth min_growth rest; mret ((sp, q) :: tl)
          | None => raise ValueError
          end
      end
  end.

(** Modelled from the spec: [_apply_min_growth] of [micom.util] (not in
    the sources at hand) pushes the minimum growth of every member into
    the lower bound of its [objective_<species>] constraint, reversibly. *)
Fixpoint _apply_min_growth (min_growth : list (string * Q)) : Py unit :=
  match min_growth with
  | [] => mret tt
  | (sp, q) :: rest =>
      c ← get_constraint (objective_name sp);
      update_model (fun m =>
        set_constraints
          (set_constraint_lb (objective_name sp) (Some q) (constraints m))
          (record_undo (USetConstraintLb (objective_name sp) (c_lb c)) m));;
      _apply_min_growth rest
  end.

(** Modelled from the spec: [optimize_with_retry] of [micom.util] (not in
    the sources at hand) solves the model as it stands and returns the
    optimal objective value, or fails with [OptimizationError] carrying
    the message; it does not change the bounds. *)
Definition optimize_with_retry {S : Solver} (message : string) : Py Q :=
  m ← get_model;
  log (EvOptimizeWithRetry m message);;
  match solver_optimize_with_retry m with
  | Some v => mret v
  | None => raise (OptimizationError message)
  end.

Definition new_solution (r : SolverResult) : Py Solution :=
  l ← alloc (sr_growth_rate r);
  mret {| status := sr_status r; members_growth_rate := l |}.

(** Modelled from the spec: [solve] of [micom.solution] (not in the
    sources at hand) solves the model in its current state and returns a
    new Solution with its status and per-member growth rates. *)
Definition solve {S : Solver} (fluxes pfba : bool) : Py Solution :=
  m ← get_model;
  sol ← new_solution (solver_solve m fluxes pfba);
  log (EvSolve m fluxes pfba sol);;
  mret sol.

(** Modelled from the spec: [Community.optimize] of [micom.community] (not
    in the sources at hand) is the same solve primitive, as a method. *)
Definition optimize {S : Solver} : Py Solution :=
  m ← get_model;
  sol ← new_solution (solver_optimize m);
  log (EvOptimize m sol);;
  mret sol.

(** Modelled from the spec: [crossover] of [micom.solution] (not in the
    sources at hand) re-solves the model as the caller has bounded it and
    returns whatever Solution results; it does not itself fail. *)
Definition crossover {S : Solver} (sol : Solution) : Py Solution :=
  m ← get_model;
  old ← read (members_growth_rate sol);
  sol' ← new_solution
    (solver_crossover m {| sr_status := status sol; sr_growth_rate := old |});
  log (EvCrossover m sol sol');;
  mret sol'.

(** ** [regularize_l2_norm] *)

(** Whether optlang accepts [lb] as a lower bound of
    [community_objective]: it must not exceed the upper bound. *)
Definition lb_admitted (lb : Q) (m : Community) : bool :=
  match co_ub m with
  | Some ub => Qle_bool lb ub
  | None => true
  end.

(** [community.variables.community_objective.lb = lb], as optlang's
    setter has it: a lower bound above the upper bound is refused with
    [ValueError] and nothing is written. *)
Definition assign_co_lb (lb : Q) : Py unit :=
  m ← get_model;
  if lb_admitted lb m then update_model (set_co_lb (Some lb))
  else raise ValueError.

Definition eps : Q := 1 # 1000000.

(** [v for v in species_obj.variables if (v.ub - v.lb) > 1e-6]; a bound
    that is [None] cannot be subtracted. *)
Fixpoint active_variables (vs : list OptVar) : Py (list OptVar) :=
  match vs with
  | [] => mret []
  | v :: rest =>
      match v_ub v, v_lb v with
      | Some ub, Some lb =>
          tl ← active_variables rest;
          mret (if Qle_bool (ub - lb) eps then tl else v :: tl)
      | _, _ => raise TypeError
      end
  end.

(** [sum(...)] of the symbols of the variables, starting from [0]. *)
Definition sum_symbols (vs : list OptVar) : Expr :=
  fold_left (fun acc v => EAdd acc (ESym (v_name v))) vs (ENum 0).

(** The body of the loop over [community.species]; [l2] is the
    accumulator.  With no active variable the sum is the integer [0],
    which has no [expand]. *)
Fixpoint l2_terms (scale : nat) (members : list string) (l2 : Expr)
    : Py Expr :=
  match members with
  | [] => mret l2
  | sp :: rest =>
      species_obj ← get_constraint (objective_name sp);
      vs ← active_variables (c_variables species_obj);
      match vs with
      | [] => raise AttributeError
      | _ =>
          let ex := sum_symbols vs in
          l2_terms scale rest
            (EAdd l2
               (expand (ESquare (EMul (ENum (inject_Z (Z.of_nat scale))) ex))))
      end
  end.

Definition regularize_l2_norm (min_growth : Q) : Py unit :=
  assign_co_lb min_growth;;
  update_model (record_undo UResetMinCommunityGrowth);;
  m ← get_model;
  l2 ← l2_terms (length (species m)) (species m) Zero;
  update_model (set_objective (ENeg l2));;
  update_model (set_modification (Some "l2 norm")).

(** ** [cooperative_tradeoff] *)

(** The [fraction] argument: a bare number, or a [Sized] sequence. *)
Inductive FractionArg :=
  | FracScalar (q : Q)
  | FracSized (l : list Q).

Fixpoint insert_sorted (x : Q) (l : list Q) : list Q :=
  match l with
  | [] => [x]
  | y :: l' => if Qle_bool x y then x :: l else y :: insert_sorted x l'
  end.

(** [np.sort]: ascending order. *)
Definition np_sort (l : list Q) : list Q := fold_right insert_sorted [] l.

Inductive TradeoffResult :=
  | BareSolution (sol : Solution)
  | TradeoffTable (rows : list (Q * Solution)).

Definition community_objective_expr : Expr :=
  EMul (ENum 1) (ESym "community_objective").

(** One pass of [for fr in fraction], without the append.  The bound
    writes of the sweep are plain writes: for fractions in (0, 1] and a
    baseline growth rate between 0 and the upper bound the model came
    with, their targets lie within the bounds the model has at that
    point. *)
Definition tradeoff_step {S : Solver} (min_growth : Q) (fluxes pfba : bool)
    (fr : Q) : Py Solution :=
  update_model (set_co_lb (Some (fr * min_growth)%Q));;
  sol ← solve fluxes pfba;
  if negb (String.eqb (status sol) OPTIMAL) then
    update_model (set_co_lb (Some ((99 # 100) * fr * min_growth)%Q));;
    update_model (set_co_ub (Some ((101 # 100) * fr * min_growth)%Q));;
    crossover sol
  else mret sol.

Fixpoint tradeoff_loop {S : Solver} (min_growth : Q) (fluxes pfba : bool)
    (fraction : list Q) (results : list (Q * Solution))
    : Py (list (Q * Solution)) :=
  match fraction with
  | [] => mret results
  | fr :: rest =>
      sol ← tradeoff_step min_growth fluxes pfba fr;
      tradeoff_loop min_growth fluxes pfba rest (results ++ [(fr, sol)])
  end.

Definition normalize_fraction (fraction : FractionArg) : list Q :=
  match fraction with
  | FracScalar q => [q]
  | FracSized l => rev (np_sort l)
  end.

(** The block under [with community as com:] in [cooperative_tradeoff]. *)
Definition cooperative_tradeoff_body {S : Solver} (min_growth : MinGrowthSpec)
    (fraction : FractionArg) (fluxes pfba : bool) : Py TradeoffResult :=
    check_modification;;
    m ← get_model;
    min_growth ← _format_min_growth min_growth (species m);
    _apply_min_growth min_growth;;
    update_model (set_objective community_objective_expr);;
    min_growth ← optimize_with_retry "could not get community growth rate.";
    let fraction := normalize_fraction fraction in
    regularize_l2_norm 0;;
    results ← tradeoff_loop min_growth fluxes pfba fraction [];
    match results with
    | [(_, sol)] => mret (BareSolution sol)
    | _ => mret (TradeoffTable results)
    end.

Definition cooperative_tradeoff {S : Solver} (min_growth : MinGrowthSpec)
    (fraction : FractionArg) (fluxes pfba : bool) : Py TradeoffResult :=
  with_model (cooperative_tradeoff_body min_growth fraction fluxes pfba).

(** ** [knockout_species] *)

(** Something a [for] loop can run over: a list, or a [tqdm] wrapper. *)
Inductive Iterable :=
  | PyList (l : list string)
  | Tqdm (inner : Iterable) (unit_ : string).

Fixpoint iterate (it : Iterable) : list string :=
  match it with
  | PyList l => l
  | Tqdm inner _ => iterate inner
  end.

(** [needle in haystack] on strings *)
Definition contains (needle haystack : string) : bool :=
  match String.index 0 needle haystack with
  | Some _ => true
  | None => false
  end.

(** [[r.knock_out() for r in com.reactions.query(...)]]: [rs] are the
    reactions from position [i] on. *)
Fixpoint knock_out_members (sp : string) (i : nat) (rs : list Reaction)
    (m : Community) : Community :=
  match rs with
  | [] => m
  | r :: rest =>
      knock_out_members sp (S i) rest
        (if String.eqb (community_id r) sp then knock_out i m else m)
  end.

(** A pandas DataFrame: row labels, column labels and the cells by row. *)
Record DataFrame := {
  df_index : list string;
  df_columns : list string;
  df_values : list (list fval)
}.

Fixpoint union_labels (acc : list string) (ks : list string) : list string :=
  match ks with
  | [] => acc
  | k :: rest =>
      union_labels (if mem_label k acc then acc else acc ++ [k]) rest
  end.

(** [pd.DataFrame(rows, index=index)]: one row per Series, one column per
    label, NaN where a Series lacks the label.  The cells are copied. *)
Definition data_frame (rows : list Series) (index : list string) : DataFrame :=
  let columns := fold_left (fun acc s => union_labels acc (labels s)) rows [] in
  {| df_index := index;
     df_columns := columns;
     df_values :=
       map (fun s => map (fun c => default NaN (series_get c s)) columns) rows |}.

Definition keep_columns (label : string) (columns : list string)
    (row : list fval) : list fval :=
  map snd (List.filter (fun cx => negb (String.eqb (fst cx) label))
                  (combine columns row)).

(** [df.drop(label, 1)]: a new table without the columns of that label. *)
Definition drop_column (label : string) (df : DataFrame) : Py DataFrame :=
  if mem_label label (df_columns df) then
    mret {| df_index := df_index df;
            df_columns :=
              List.filter (fun c => negb (String.eqb c label)) (df_columns df);
            df_values := map (keep_columns label (df_columns df)) (df_values df) |}
  else raise (KeyError label).

(** [np.fill_diagonal(df.values, val)] *)
Definition fill_diagonal (val : fval) (df : DataFrame) : DataFrame :=
  {| df_index := df_index df;
     df_columns := df_columns df;
     df_values := imap (fun i row => <[i := val]> row) (df_values df) |}.

(** The reporting transform of lines 137-140 on the Series object [new]. *)
Definition report (method : string) (old new : nat) : Py nat :=
  new ← (if contains "change" method then
           a ← read new; b ← read old; alloc (series_sub a b)
         else mret new);
  (if contains "relative" method then
     a ← read new; b ← read old; write new (series_div a b)
   else mret tt);;
  mret new.

(** ["could not get community growth rate for knockout %s." % sp] *)
Definition knockout_message (sp : string) : string :=
  ("could not get community growth rate for knockout " ++ sp ++ ".")%string.
Arguments knockout_message : simpl never.

(** Lines 117-135 of the body of [for sp in species]: the knockout and
    the solves, up to the Solution whose growth rates are reported.  The
    bound writes are plain writes, as in the sweep over fractions. *)
Definition knockout_solve {S : Solver} (community_min_growth fraction : Q)
    (sp : string) : Py Solution :=
  update_model (set_co_lb (Some 0%Q));;
  update_model (set_co_ub (Some community_min_growth));;
  m ← get_model;
  update_model (knock_out_members sp 0 (reactions m));;
  min_growth ← with_model (
    update_model (set_objective community_objective_expr);;
    optimize_with_retry (knockout_message sp));
  update_model (set_co_lb (Some (fraction * min_growth)%Q));;
  update_model (set_co_ub (Some min_growth));;
  sol ← optimize;
  if negb (String.eqb (status sol) OPTIMAL) then
    update_model (set_co_lb (Some 0%Q));;
    update_model (set_co_ub (Some (fraction * min_growth)%Q));;
    crossover sol
  else mret sol.

(** The body of [for sp in species], without the append. *)
Definition knockout_step {S : Solver} (community_min_growth fraction : Q)
    (method : string) (old : nat) (sp : string) : Py nat :=
  with_model (
    sol ← knockout_solve community_min_growth fraction sp;
    report method old (members_growth_rate sol)).

Fixpoint knockout_loop {S : Solver} (community_min_growth fraction : Q)
    (method : string) (old : nat) (sps : list string) (results : list nat)
    : Py (list nat) :=
  match sps with
  | [] => mret results
  | sp :: rest =>
      new ← knockout_step community_min_growth fraction method old sp;
      knockout_loop community_min_growth fraction method old rest
        (results ++ [new])
  end.

(** [pd.DataFrame(results, index=species).drop("medium", 1)] *)
Definition results_table (results : list nat) (index : Iterable)
    : Py DataFrame :=
  fun w => drop_column "medium"
             (data_frame (map (deref (heap w)) results) (iterate index)) w.

(** Lines 113-147: the loop over [species] and the table made of its
    results. *)
Definition knockout_sweep {S : Solver} (species_it : Iterable)
    (community_min_growth fraction : Q) (method : string) (old : nat)
    (diag : bool) : Py DataFrame :=
  results ← knockout_loop community_min_growth fraction method old
              (iterate species_it) [];
  ko ← results_table results species_it;
  let ko := if diag then ko else fill_diagonal NaN ko in
  results_table results species_it.

(** The block under [with community as com:] in [knockout_species]. *)
Definition knockout_species_body {S : Solver} (species_arg : list string)
    (fraction : Q) (method : string) (progress diag : bool) : Py DataFrame :=
  check_modification;;
  m ← get_model;
  min_growth ← _format_min_growth (MGScalar 0) (species m);
  _apply_min_growth min_growth;;
  community_min_growth ←
    optimize_with_retry "could not get community growth rate.";
  regularize_l2_norm (fraction * community_min_growth);;
  sol ← optimize;
  let old := members_growth_rate sol in
  let species_it :=
    if progress then Tqdm (PyList species_arg) "knockout(s)"
    else PyList species_arg in
  knockout_sweep species_it community_min_growth fraction method old diag.

Definition knockout_species {S : Solver} (species_arg : list string)
    (fraction : Q) (method : string) (progress diag : bool) : Py DataFrame :=
  with_model (knockout_species_body species_arg fraction method progress diag).

(** ** A small community and a toy solver, for concrete runs *)

Definition toy_variable (name : string) (lb ub : Q) : OptVar :=
  {| v_name := name; v_lb := Some lb; v_ub := Some ub |}.

Definition toy_constraint (sp : string) : Constraint :=
  {| c_name := objective_name sp; c_lb := Some 0%Q; c_ub := None;
     c_variables := [toy_variable ("bio_" ++ sp) 0 1000;
                     toy_variable ("bio_" ++ sp ++ "_reverse") 0 0] |}.

Definition toy_community : Community :=
  {| id := "toy";
     species := ["A"; "B"];
     co_lb := Some 0%Q;
     co_ub := None;
     constraints := [toy_constraint "A"; toy_constraint "B"];
     reactions :=
       [ {| r_id := "bio_A"; community_id := "A"; r_lb := 0; r_ub := 4 # 5 |};
         {| r_id := "bio_B"; community_id := "B"; r_lb := 0; r_ub := 3 # 5 |};
         {| r_id := "EX_glc_m"; community_id := "medium";
            r_lb := - (10); r_ub := 10 |} ];
     objective := community_objective_expr;
     modification := None;
     contexts := [] |}.

(** The growth the toy solver reports for a member: the capacity of its
    first reaction (zero once it is knocked out). *)
Definition toy_growth (m : Community) (sp : string) : fval :=
  match List.filter (fun r => String.eqb (community_id r) sp) (reactions m) with
  | r :: _ => Fin (r_ub r)
  | [] => Fin 0
  end.

Definition toy_members (m : Community) : Series :=
  map (fun sp => (sp, toy_growth m sp)) (species m) ++ [("medium", NaN)].

(** Optimal as long as the community growth is not forced above 1/2. *)
Definition toy_status (m : Community) : string :=
  match co_lb m with
  | Some lb => if Qle_bool lb (1 # 2) then "optimal" else "infeasible"
  | None => "optimal"
  end.

Definition toy_solver : Solver :=
  {| solver_optimize_with_retry := fun _ => Some 1%Q;
     solver_solve := fun m _ _ =>
       {| sr_status := toy_status m; sr_growth_rate := toy_members m |};
     solver_optimize := fun m =>
       {| sr_status := toy_status m; sr_growth_rate := toy_members m |};
     solver_crossover := fun m _ =>
       {| sr_status := "infeasible"; sr_growth_rate := toy_members m |} |}.

Definition toy_world : World :=
  {| com := toy_community; heap := []; trace := [] |}.

(** ** Vocabulary of the statements *)

(** The bounds of [community_objective]. *)
Definition co_bounds (m : Community) : option Q * option Q :=
  (co_lb m, co_ub m).

(** Two model states agree on everything except the bounds of
    [community_objective] and the context stack. *)
Definition core_eq (m1 m2 : Community) : Prop :=
  id m1 = id m2 /\ species m1 = species m2 /\
  constraints m1 = constraints m2 /\ reactions m1 = reactions m2 /\
  objective m1 = objective m2 /\ modification m1 = modification m2.

(** The world after a computation. *)
Definition after {A} (c : Py A) (w : World) : World := snd (c w).

(** A computation relates every world to the one it leaves behind. *)
Definition preserves (R : World -> World -> Prop) {A} (c : Py A) : Prop :=
  forall w, R w (after c w).

(** The model is left alone. *)
Definition R_model (w w' : World) : Prop := com w' = com w.

(** Every change to the model, the bounds of [community_objective] apart,
    is recorded in the innermost context, which can take it back. *)
Definition R_track (w w' : World) : Prop :=
  forall h rest, contexts (com w) = h :: rest ->
    exists h', contexts (com w') = (h' ++ h) :: rest /\
               core_eq (undo_all h' (com w')) (com w).

(** As [R_track], and the bounds of [community_objective] are either
    unchanged or covered by a recorded [reset_min_community_growth]. *)
Definition R_scoped (w w' : World) : Prop :=
  forall h rest, contexts (com w) = h :: rest ->
    exists h', contexts (com w') = (h' ++ h) :: rest /\
               core_eq (undo_all h' (com w')) (com w) /\
               (In UResetMinCommunityGrowth h' \/
                co_bounds (com w') = co_bounds (com w)).

(** As [R_track], with a [reset_min_community_growth] recorded. *)
Definition R_install (w w' : World) : Prop :=
  forall h rest, contexts (com w) = h :: rest ->
    exists h', contexts (com w') = (h' ++ h) :: rest /\
               core_eq (undo_all h' (com w')) (com w) /\
               In UResetMinCommunityGrowth h'.

(** The model states at which [solve] was called, in order. *)
Definition solves (t : list Event) : list Community :=
  flat_map (fun ev => match ev with EvSolve m _ _ _ => [m] | _ => [] end) t.

(** The [crossover] calls of a log: model state, argument and result. *)
Definition crossovers (t : list Event)
    : list (Community * Solution * Solution) :=
  flat_map (fun ev => match ev with
                      | EvCrossover m a s => [(m, a, s)]
                      | _ => []
                      end) t.


(** The minimum growth a specification asks of a member. *)
Definition min_growth_of (spec : MinGrowthSpec) (sp : string) : option Q :=
  match spec with
  | MGScalar q => Some q
  | MGPerMember entries => lookup_growth sp entries
  end.

(** The lower bound of a member's [objective_<species>] constraint. *)
Definition member_lower_bound (m : Community) (sp : string) : option Q :=
  match find_constraint (objective_name sp) (constraints m) with
  | Some c => c_lb c
  | None => None
  end.

(** A variable whose bound interval is wider than [eps]. *)
Definition is_active (v : OptVar) : bool :=
  match v_ub v, v_lb v with
  | Some ub, Some lb => negb (Qle_bool (ub - lb) eps)
  | _, _ => false
  end.

Definition is_bounded (v : OptVar) : bool :=
  match v_ub v, v_lb v with
  | Some _, Some _ => true
  | _, _ => false
  end.

(** The spec's words for the regulariser: for one member, the sum of the
    values of its active variables, scaled by the member count and
    squared. *)
Definition spec_member_term (rho : string -> Q) (n : nat) (c : Constraint) : Q :=
  let s := fold_right (fun v acc => (rho (v_name v) + acc)%Q) 0%Q
             (List.filter is_active (c_variables c)) in
  ((inject_Z (Z.of_nat n) * s) * (inject_Z (Z.of_nat n) * s))%Q.

(** The spec's words for the regulariser: the terms of all members,
    accumulated. *)
Definition spec_l2_sum (rho : string -> Q) (m : Community) : Q :=
  fold_right
    (fun sp acc =>
       match find_constraint (objective_name sp) (constraints m) with
       | Some c => (spec_member_term rho (length (species m)) c + acc)%Q
       | None => acc
       end) 0%Q (species m).

(** The members of a list all have their constraint among [cs], with
    bounded variables and an active one. *)
Definition members_ready (cs : list Constraint) (members : list string) : Prop :=
  Forall (fun sp =>
            exists c, find_constraint (objective_name sp) cs = Some c /\
                      forallb is_bounded (c_variables c) = true /\
                      List.filter is_active (c_variables c) <> [])
         members.

(** Every member has its objective constraint, with bounded variables, at
    least one of them active. *)
Definition l2_ready (m : Community) : Prop :=
  members_ready (constraints m) (species m).

(** The cell of a table at a row label and a column label. *)
Definition df_cell (df : DataFrame) (row col : string) : option fval :=
  match list_find (String.eqb row) (df_index df),
        list_find (String.eqb col) (df_columns df) with
  | Some (i, _), Some (j, _) =>
      match df_values df !! i with
      | Some cells => cells !! j
      | None => None
      end
  | _, _ => None
  end.

(** The value of an expanded polynomial. *)
Definition mono_eval (rho : string -> Q) (m : monomial) : Q :=
  fold_left (fun acc x => (acc * rho x)%Q) (snd m) (fst m).

Definition poly_eval (rho : string -> Q) (p : poly) : Q :=
  fold_right (fun m acc => (mono_eval rho m + acc)%Q) 0%Q p.

(** The model states at which [solve] was called before the first
    [crossover] of a log. *)
Fixpoint solves_before_recovery (t : list Event) : list Community :=
  match t with
  | [] => []
  | EvCrossover _ _ _ :: _ => []
  | EvSolve m _ _ _ :: t' => m :: solves_before_recovery t'
  | _ :: t' => solves_before_recovery t'
  end.

(** Nothing changes. *)
Definition R_same (w w' : World) : Prop := w' = w.

(** The log, the store and the upper bound of [community_objective] are
    left alone. *)
Definition R_quiet (w w' : World) : Prop :=
  trace w' = trace w /\ heap w' = heap w /\ co_ub (com w') = co_ub (com w).

(** Descending order. *)
Definition descending (l : list Q) : Prop :=
  StronglySorted (fun a b => (b <= a)%Q) l.

(** The toy model with a modification marker already set. *)
Definition toy_world_modified : World :=
  {| com := set_modification_raw (Some "l2 norm") toy_community;
     heap := []; trace := [] |}.

(** The toy model with a lower bound on [community_objective] set by the
    caller beforehand. *)
Definition toy_world_bounded : World :=
  {| com := set_co_lb (Some (1 # 2)) toy_community; heap := []; trace := [] |}.

(** A store with a reference row [old] at address 0 and a post-knockout
    row [new] at address 1. *)
Definition scenario_world : World :=
  {| com := toy_community;
     heap := [ [("A", Fin (4 # 5)); ("B", Fin (3 # 5))];
               [("A", Fin 0); ("B", Fin (1 # 2))] ];
     trace := [] |}.

(** As [R_track], with the bounds of [community_objective] unchanged and
    no reset of them recorded. *)
Definition R_kept (w w' : World) : Prop :=
  forall h rest, contexts (com w) = h :: rest ->
    exists h', contexts (com w') = (h' ++ h) :: rest /\
               core_eq (undo_all h' (com w')) (com w) /\
               ~ In UResetMinCommunityGrowth h' /\
               co_bounds (com w') = co_bounds (com w).

(** The log only grows. *)
Definition R_grows (w w' : World) : Prop :=
  exists t, trace w' = trace w ++ t.

(** What stops [regularize_l2_norm] at a member, if anything: its
    constraint is missing, one of its variables lacks a bound, or none of
    its variables is active. *)
Definition member_failure (cs : list Constraint) (sp : string) : option PyError :=
  match find_constraint (objective_name sp) cs with
  | None => Some (KeyError (objective_name sp))
  | Some c =>
      if forallb is_bounded (c_variables c) then
        match List.filter is_active (c_variables c) with
        | [] => Some AttributeError
        | _ :: _ => None
        end
      else Some TypeError
  end.


(** The toy community with the growth of B pinned: no variable of its
    objective constraint has any width. *)
Definition toy_community_pinned : Community :=
  set_constraints
    [toy_constraint "A";
     {| c_name := objective_name "B"; c_lb := Some 0%Q; c_ub := None;
        c_variables := [toy_variable "bio_B" (1 # 2) (1 # 2)] |}]
    toy_community.

(** A solver whose retrying optimizer never reaches an optimal status. *)
Definition failing_solver : Solver :=
  {| solver_optimize_with_retry := fun _ => None;
     solver_solve := solver_solve (Solver := toy_solver);
     solver_optimize := solver_optimize (Solver := toy_solver);
     solver_crossover := solver_crossover (Solver := toy_solver) |}.

(** The log grows by entries that are neither a [solve] nor a
    [crossover]. *)
Definition R_nosolve (w w' : World) : Prop :=
  exists t, trace w' = trace w ++ t /\ solves t = [] /\ crossovers t = [].

(** The toy world once the regulariser has been installed outside any
    block. *)
Definition toy_world_regularized : World :=
  after (regularize_l2_norm (1 # 2)) toy_world.

(** The toy model with an upper bound of 1 on [community_objective]. *)
Definition toy_world_capped : World :=
  {| com := set_co_ub (Some 1%Q) toy_community; heap := []; trace := [] |}.

(** The pinned toy community as a world. *)
Definition toy_world_pinned : World :=
  {| com := toy_community_pinned; heap := []; trace := [] |}.

(** * Properties *)

Section Properties.

Context {S : Solver}.

(** ** The monad *)

Lemma bind_unfold {A B} (c : Py A) (f : A -> Py B) (w : World) :
  (c ≫= f) w = match c w with
               | (Ok a, w') => f a w'
               | (Raise e, w') => (Raise e, w')
               end.
Proof. reflexivity. Qed.

Lemma bind_ok_inv {A B} (c : Py A) (f : A -> Py B) w b w' :
  (c ≫= f) w = (Ok b, w') ->
  exists a w1, c w = (Ok a, w1) /\ f a w1 = (Ok b, w').
Proof.
  rewrite bind_unfold. destruct (c w) as [[a|e] w1]; intros E.
  - eauto.
  - discriminate.
Qed.

Lemma with_model_inv {A} (body : Py A) w r w' :
  with_model body w = (r, w') ->
  exists w2,
    body {| com := enter (com w); heap := heap w; trace := trace w |} = (r, w2) /\
    w' = {| com := exit (com w2); heap := heap w2; trace := trace w2 |}.
Proof.
  unfold with_model. destruct (body _) as [r2 w2]. intros E.
  inversion E; subst. eauto.
Qed.

(** ** Computations that preserve a relation between worlds *)

Section Preserving.

Variable R : World -> World -> Prop.
Hypothesis R_refl : forall w, R w w.
Hypothesis R_trans : forall a b c, R a b -> R b c -> R a c.

Lemma preserves_ret {A} (a : A) : preserves R (mret a).
Proof. intros w. apply R_refl. Qed.

Lemma preserves_raise {A} (e : PyError) : preserves R (@raise A e).
Proof. intros w. apply R_refl. Qed.

Lemma preserves_get_model : preserves R get_model.
Proof. intros w. apply R_refl. Qed.

Lemma preserves_read l : preserves R (read l).
Proof. intros w. apply R_refl. Qed.

Lemma preserves_bind {A B} (c : Py A) (f : A -> Py B) :
  preserves R c -> (forall a, preserves R (f a)) -> preserves R (c ≫= f).
Proof.
  intros Hc Hf w. unfold after. rewrite bind_unfold.
  specialize (Hc w). unfold after in Hc.
  destruct (c w) as [[a|e] w1]; simpl in *.
  - eapply R_trans; [exact Hc | apply Hf].
  - exact Hc.
Qed.

End Preserving.

Lemma preserves_weaken (R R' : World -> World -> Prop) {A} (c : Py A) :
  (forall w w', R w w' -> R' w w') -> preserves R c -> preserves R' c.
Proof. intros HR Hc w. apply HR, Hc. Qed.

Lemma R_model_refl w : R_model w w.
Proof. reflexivity. Qed.

Lemma R_model_trans a b c : R_model a b -> R_model b c -> R_model a c.
Proof. unfold R_model. congruence. Qed.

Lemma core_eq_refl m : core_eq m m.
Proof. repeat split. Qed.

Lemma core_eq_trans m1 m2 m3 : core_eq m1 m2 -> core_eq m2 m3 -> core_eq m1 m3.
Proof. unfold core_eq. intuition congruence. Qed.

Lemma run_undo_core u m1 m2 :
  core_eq m1 m2 -> core_eq (run_undo u m1) (run_undo u m2).
Proof.
  unfold core_eq. intros (H1 & H2 & H3 & H4 & H5 & H6).
  destruct u; simpl; rewrite ?H3, ?H4; repeat split; assumption.
Qed.

Lemma undo_all_core h : forall m1 m2,
  core_eq m1 m2 -> core_eq (undo_all h m1) (undo_all h m2).
Proof.
  induction h as [|u h IH]; intros m1 m2 H; simpl; [exact H|].
  apply IH, run_undo_core, H.
Qed.

Lemma undo_all_app h1 h2 m :
  undo_all (h1 ++ h2) m = undo_all h2 (undo_all h1 m).
Proof. unfold undo_all. apply fold_left_app. Qed.

Lemma run_undo_contexts u m : contexts (run_undo u m) = contexts m.
Proof. destruct u; reflexivity. Qed.

Lemma undo_all_contexts h : forall m, contexts (undo_all h m) = contexts m.
Proof.
  induction h as [|u h IH]; intros m; simpl; [reflexivity|].
  rewrite IH. apply run_undo_contexts.
Qed.

Lemma reset_in_dec (h : list Undo) :
  In UResetMinCommunityGrowth h \/ ~ In UResetMinCommunityGrowth h.
Proof.
  induction h as [|u h [IH|IH]].
  - right. intros [].
  - left. right. exact IH.
  - destruct u; try (right; intros [E|E]; [discriminate|contradiction]).
    left. left. reflexivity.
Qed.

Lemma undo_all_bounds_keep h : forall m,
  ~ In UResetMinCommunityGrowth h -> co_bounds (undo_all h m) = co_bounds m.
Proof.
  induction h as [|u h IH]; intros m Hn; simpl; [reflexivity|].
  rewrite IH by (intros Hin; apply Hn; right; exact Hin).
  destruct u; try reflexivity. exfalso. apply Hn. left. reflexivity.
Qed.

(** After a reset, the bounds of [community_objective] are the default
    ones if a [reset_min_community_growth] was recorded. *)
Lemma undo_all_bounds_reset h : forall m,
  In UResetMinCommunityGrowth h -> co_bounds (undo_all h m) = (Some 0%Q, None).
Proof.
  induction h as [|u h IH]; intros m Hin; simpl; [destruct Hin|].
  destruct (reset_in_dec h) as [Hh|Hh]; [apply IH, Hh|].
  destruct Hin as [->|Hin]; [|contradiction].
  rewrite undo_all_bounds_keep by exact Hh. reflexivity.
Qed.

Lemma R_same_refl w : R_same w w.
Proof. reflexivity. Qed.

Lemma R_same_trans a b c : R_same a b -> R_same b c -> R_same a c.
Proof. unfold R_same. congruence. Qed.

Lemma R_quiet_refl w : R_quiet w w.
Proof. repeat split. Qed.

Lemma R_quiet_trans a b c : R_quiet a b -> R_quiet b c -> R_quiet a c.
Proof. unfold R_quiet. intuition congruence. Qed.

Lemma R_same_quiet w w' : R_same w w' -> R_quiet w w'.
Proof. unfold R_same. intros ->. apply R_quiet_refl. Qed.

Lemma R_track_refl w : R_track w w.
Proof. intros h rest E. exists []. split; [exact E|apply core_eq_refl]. Qed.

Lemma R_track_trans a b c : R_track a b -> R_track b c -> R_track a c.
Proof.
  intros Hab Hbc h rest E.
  destruct (Hab h rest E) as (h1 & E1 & C1).
  destruct (Hbc (h1 ++ h) rest E1) as (h2 & E2 & C2).
  exists (h2 ++ h1). split.
  - rewrite E2. f_equal. apply app_assoc.
  - rewrite undo_all_app.
    eapply core_eq_trans; [apply undo_all_core, C2|exact C1].
Qed.

Lemma R_scoped_refl w : R_scoped w w.
Proof.
  intros h rest E. exists []. repeat split; try exact E. right. reflexivity.
Qed.

Lemma R_scoped_trans a b c : R_scoped a b -> R_scoped b c -> R_scoped a c.
Proof.
  intros Hab Hbc h rest E.
  destruct (Hab h rest E) as (h1 & E1 & C1 & B1).
  destruct (Hbc (h1 ++ h) rest E1) as (h2 & E2 & C2 & B2).
  exists (h2 ++ h1). split; [|split].
  - rewrite E2. f_equal. apply app_assoc.
  - rewrite undo_all_app.
    eapply core_eq_trans; [apply undo_all_core, C2|exact C1].
  - destruct B2 as [B2|B2]; [left; apply in_or_app; left; exact B2|].
    destruct B1 as [B1|B1]; [left; apply in_or_app; right; exact B1|].
    right. congruence.
Qed.

Lemma R_model_track w w' : R_model w w' -> R_track w w'.
Proof.
  unfold R_model. intros E h rest Ec. exists []. rewrite E.
  split; [exact Ec|apply core_eq_refl].
Qed.

Lemma R_model_scoped w w' : R_model w w' -> R_scoped w w'.
Proof.
  unfold R_model. intros E h rest Ec. exists []. rewrite E.
  repeat split; try exact Ec. right. reflexivity.
Qed.

Lemma R_install_scoped w w' : R_install w w' -> R_scoped w w'.
Proof.
  intros H h rest E. destruct (H h rest E) as (h' & E' & C & I).
  exists h'. auto.
Qed.

Lemma R_scoped_track w w' : R_scoped w w' -> R_track w w'.
Proof.
  intros H h rest E. destruct (H h rest E) as (h' & E' & C & _).
  exists h'. auto.
Qed.

Ltac rel_side :=
  first [ exact R_model_refl | exact R_model_trans
        | exact R_track_refl | exact R_track_trans
        | exact R_scoped_refl | exact R_scoped_trans
        | exact R_same_refl | exact R_same_trans
        | exact R_quiet_refl | exact R_quiet_trans ].

(** Takes a computation apart along its binds. *)
Ltac pres :=
  repeat lazymatch goal with
    | |- preserves _ (mret _) => apply preserves_ret; rel_side
    | |- preserves _ (raise _) => apply preserves_raise; rel_side
    | |- preserves _ get_model => apply preserves_get_model; rel_side
    | |- preserves _ (read _) => apply preserves_read; rel_side
    | |- preserves _ (mbind _ _) => apply preserves_bind; [rel_side | | intros ?]
    end.

(** *** Primitives that leave the model alone *)

Lemma log_model ev : preserves R_model (log ev).
Proof. intros w. reflexivity. Qed.

Lemma alloc_model s : preserves R_model (alloc s).
Proof. intros w. reflexivity. Qed.

Lemma write_model l s : preserves R_model (write l s).
Proof. intros w. reflexivity. Qed.

Lemma new_solution_model r : preserves R_model (new_solution r).
Proof. unfold new_solution. pres. apply alloc_model. Qed.

Lemma solve_model fluxes pfba : preserves R_model (solve fluxes pfba).
Proof. unfold solve. pres; [apply new_solution_model|apply log_model]. Qed.

Lemma optimize_model : preserves R_model optimize.
Proof. unfold optimize. pres; [apply new_solution_model|apply log_model]. Qed.

Lemma crossover_model sol : preserves R_model (crossover sol).
Proof. unfold crossover. pres; [apply new_solution_model|apply log_model]. Qed.

Lemma optimize_with_retry_model msg : preserves R_model (optimize_with_retry msg).
Proof.
  unfold optimize_with_retry. pres; [apply log_model|].
  destruct (solver_optimize_with_retry _); pres.
Qed.

Lemma report_model method old new : preserves R_model (report method old new).
Proof.
  unfold report. pres.
  - destruct (contains "change" method); pres. apply alloc_model.
  - destruct (contains "relative" method); pres. apply write_model.
Qed.

Lemma get_constraint_model name : preserves R_model (get_constraint name).
Proof.
  unfold get_constraint. pres. destruct (find_constraint _ _); pres.
Qed.

Lemma check_modification_model : preserves R_model check_modification.
Proof. unfold check_modification. pres. destruct (modification _); pres. Qed.

Lemma _format_min_growth_model spec members :
  preserves R_model (_format_min_growth spec members).
Proof.
  induction members as [|sp rest IH]; cbn [_format_min_growth]; [pres|].
  destruct spec; [pres; exact IH|].
  destruct (lookup_growth _ _); pres. exact IH.
Qed.

Lemma active_variables_model vs : preserves R_model (active_variables vs).
Proof.
  induction vs as [|v rest IH]; cbn [active_variables]; [pres|].
  destruct (v_ub v), (v_lb v); pres. exact IH.
Qed.

Lemma l2_terms_model scale members : forall l2,
  preserves R_model (l2_terms scale members l2).
Proof.
  induction members as [|sp rest IH]; intros l2; cbn [l2_terms]; [pres|].
  pres; [apply get_constraint_model|apply active_variables_model|].
  destruct a0; [pres|apply IH].
Qed.

(** *** Changes that a context takes back *)

Lemma set_constraint_lb_restore name lb cs c :
  find_constraint name cs = Some c ->
  set_constraint_lb name (c_lb c) (set_constraint_lb name lb cs) = cs.
Proof.
  induction cs as [|c0 cs IH]; simpl; [discriminate|].
  destruct (String.eqb (c_name c0) name) eqn:E; simpl.
  - intros [= <-]. rewrite E. destruct c0; reflexivity.
  - intros H. rewrite E. f_equal. apply IH, H.
Qed.

Lemma set_reaction_bounds_restore i lb ub rs r :
  rs !! i = Some r ->
  set_reaction_bounds i (r_lb r) (r_ub r) (set_reaction_bounds i lb ub rs) = rs.
Proof.
  revert i. induction rs as [|r0 rs IH]; intros [|i]; simpl; try discriminate.
  - intros [= ->]. destruct r; reflexivity.
  - intros H. f_equal. apply IH, H.
Qed.

Lemma set_co_lb_track lb : preserves R_track (update_model (set_co_lb lb)).
Proof.
  intros w h rest E. exists []. split; [exact E|]. repeat split.
Qed.

Lemma set_co_ub_track ub : preserves R_track (update_model (set_co_ub ub)).
Proof.
  intros w h rest E. exists []. split; [exact E|]. repeat split.
Qed.

Lemma set_objective_scoped e : preserves R_scoped (update_model (set_objective e)).
Proof.
  intros w h rest E. exists [USetObjective (objective (com w))].
  unfold after, update_model, set_objective, record_undo; simpl. rewrite E.
  simpl. repeat split. right. reflexivity.
Qed.

Lemma set_modification_scoped mo :
  preserves R_scoped (update_model (set_modification mo)).
Proof.
  intros w h rest E. exists [USetModification (modification (com w))].
  unfold after, update_model, set_modification, record_undo; simpl. rewrite E.
  simpl. repeat split. right. reflexivity.
Qed.

Lemma record_reset_install :
  preserves R_install (update_model (record_undo UResetMinCommunityGrowth)).
Proof.
  intros w h rest E. exists [UResetMinCommunityGrowth].
  unfold after, update_model, record_undo; simpl. rewrite E.
  simpl. repeat split. left. reflexivity.
Qed.

Lemma _apply_min_growth_scoped l : preserves R_scoped (_apply_min_growth l).
Proof.
  induction l as [|[sp q] rest IH]; cbn [_apply_min_growth]; [pres|].
  intros w. unfold after, get_constraint. rewrite !bind_unfold. cbn [get_model].
  destruct (find_constraint (objective_name sp) (constraints (com w))) as [c|] eqn:F;
    [|apply R_scoped_refl].
  cbn [mret Py_ret]. rewrite !bind_unfold. cbn [update_model].
  eapply R_scoped_trans; [|apply IH].
  intros h rs E. exists [USetConstraintLb (objective_name sp) (c_lb c)].
  unfold record_undo; simpl. rewrite E. simpl.
  rewrite (set_constraint_lb_restore _ _ _ _ F).
  repeat split. right. reflexivity.
Qed.

Lemma knock_out_scoped i w :
  R_scoped w {| com := knock_out i (com w); heap := heap w; trace := trace w |}.
Proof.
  intros h rest E. unfold knock_out.
  destruct (reactions (com w) !! i) as [r|] eqn:L.
  - exists [USetReactionBounds i (r_lb r) (r_ub r)].
    unfold record_undo; simpl. rewrite E. simpl.
    rewrite (set_reaction_bounds_restore _ _ _ _ _ L).
    repeat split. right. reflexivity.
  - exists []. simpl. repeat split; try exact E. right. reflexivity.
Qed.

Lemma knock_out_members_scoped sp rs : forall i w,
  R_scoped w {| com := knock_out_members sp i rs (com w);
                heap := heap w; trace := trace w |}.
Proof.
  induction rs as [|r rs IH]; intros i w; cbn [knock_out_members].
  - destruct w; apply R_scoped_refl.
  - destruct (String.eqb (community_id r) sp).
    + eapply R_scoped_trans; [apply (knock_out_scoped i)|].
      apply (IH (Datatypes.S i)
               {| com := knock_out i (com w); heap := heap w; trace := trace w |}).
    + apply IH.
Qed.

Lemma with_model_track {A} (body : Py A) :
  preserves R_track body -> preserves R_track (with_model body).
Proof.
  intros Hb w h rest E. unfold after, with_model.
  specialize (Hb {| com := enter (com w); heap := heap w; trace := trace w |}).
  unfold after in Hb. destruct (body _) as [r w2]. simpl in *.
  destruct (Hb [] (h :: rest)) as (h' & E' & C).
  { unfold enter. simpl. rewrite E. reflexivity. }
  exists []. unfold exit. rewrite E'. simpl. rewrite undo_all_contexts. simpl.
  split; [reflexivity|].
  rewrite app_nil_r.
  eapply core_eq_trans; [|eapply core_eq_trans; [exact C|]].
  - apply undo_all_core. repeat split.
  - repeat split.
Qed.

Lemma model_track {A} (c : Py A) : preserves R_model c -> preserves R_track c.
Proof. apply preserves_weaken, R_model_track. Qed.

Lemma model_scoped {A} (c : Py A) : preserves R_model c -> preserves R_scoped c.
Proof. apply preserves_weaken, R_model_scoped. Qed.

Lemma scoped_track {A} (c : Py A) : preserves R_scoped c -> preserves R_track c.
Proof. apply preserves_weaken, R_scoped_track. Qed.

Create HintDb pres discriminated.

#[local] Hint Resolve log_model alloc_model write_model new_solution_model
  solve_model optimize_model crossover_model optimize_with_retry_model
  report_model get_constraint_model check_modification_model
  _format_min_growth_model active_variables_model l2_terms_model : pres.

#[local] Hint Resolve set_co_lb_track set_co_ub_track set_objective_scoped
  set_modification_scoped _apply_min_growth_scoped : pres.

#[local] Hint Resolve model_track model_scoped scoped_track | 5 : pres.

Lemma R_install_then a b c : R_install a b -> R_track b c -> R_install a c.
Proof.
  intros Hab Hbc h rest E.
  destruct (Hab h rest E) as (h1 & E1 & C1 & I1).
  destruct (Hbc (h1 ++ h) rest E1) as (h2 & E2 & C2).
  exists (h2 ++ h1). split; [|split].
  - rewrite E2. f_equal. apply app_assoc.
  - rewrite undo_all_app.
    eapply core_eq_trans; [apply undo_all_core, C2|exact C1].
  - apply in_or_app. right. exact I1.
Qed.

Lemma R_then_install a b c : R_track a b -> R_install b c -> R_install a c.
Proof.
  intros Hab Hbc h rest E.
  destruct (Hab h rest E) as (h1 & E1 & C1).
  destruct (Hbc (h1 ++ h) rest E1) as (h2 & E2 & C2 & I2).
  exists (h2 ++ h1). split; [|split].
  - rewrite E2. f_equal. apply app_assoc.
  - rewrite undo_all_app.
    eapply core_eq_trans; [apply undo_all_core, C2|exact C1].
  - apply in_or_app. left. exact I2.
Qed.

Lemma assign_co_lb_run lb w :
  assign_co_lb lb w =
    if lb_admitted lb (com w)
    then (Ok tt, {| com := set_co_lb (Some lb) (com w);
                    heap := heap w; trace := trace w |})
    else (Raise ValueError, w).
Proof.
  unfold assign_co_lb. rewrite bind_unfold. cbn [get_model].
  destruct (lb_admitted lb (com w)); reflexivity.
Qed.

(** [regularize_l2_norm] either is refused its lower bound and changes
    nothing, or records the reset of the bounds it changes, whether it
    then returns or raises. *)
Lemma regularize_l2_norm_cases min_growth w :
  (lb_admitted min_growth (com w) = false /\
   regularize_l2_norm min_growth w = (Raise ValueError, w)) \/
  (lb_admitted min_growth (com w) = true /\
   R_install w (after (regularize_l2_norm min_growth) w)).
Proof.
  unfold after, regularize_l2_norm. rewrite bind_unfold, assign_co_lb_run.
  destruct (lb_admitted min_growth (com w)); [right|left; split; reflexivity].
  split; [reflexivity|].
  rewrite bind_unfold. cbn [update_model].
  match goal with |- R_install _ (snd (?c ?w2)) =>
    change (R_install w (after c w2)); set (rest := c); set (w1 := w2) end.
  apply R_install_then with w1.
  - eapply R_then_install; [apply (set_co_lb_track (Some min_growth))|].
    apply record_reset_install.
  - assert (Hrest : preserves R_scoped rest) by (subst rest; pres; auto with pres).
    apply R_scoped_track, Hrest.
Qed.

Lemma regularize_l2_norm_scoped min_growth :
  preserves R_scoped (regularize_l2_norm min_growth).
Proof.
  intros w. destruct (regularize_l2_norm_cases min_growth w) as [[_ E]|[_ H]].
  - unfold after. rewrite E. apply R_scoped_refl.
  - apply R_install_scoped, H.
Qed.

(** What follows the regulariser need only be tracked. *)
Lemma regularize_bind_scoped {B} min_growth (f : unit -> Py B) :
  (forall a, preserves R_track (f a)) ->
  preserves R_scoped (regularize_l2_norm min_growth ≫= f).
Proof.
  intros Hf w. unfold after. rewrite bind_unfold.
  destruct (regularize_l2_norm_cases min_growth w) as [[_ E]|[_ H]].
  - rewrite E. apply R_scoped_refl.
  - unfold after in H.
    destruct (regularize_l2_norm min_growth w) as [[a|e] w1]; cbn [snd] in *;
      apply R_install_scoped; [|exact H].
    eapply R_install_then; [exact H|apply Hf].
Qed.

Lemma tradeoff_step_track G fluxes pfba fr :
  preserves R_track (tradeoff_step G fluxes pfba fr).
Proof.
  unfold tradeoff_step. pres; auto with pres.
  destruct (negb _); pres; auto with pres.
Qed.

Lemma tradeoff_loop_track G fluxes pfba fraction : forall results,
  preserves R_track (tradeoff_loop G fluxes pfba fraction results).
Proof.
  induction fraction as [|fr rest IH]; intros results; cbn [tradeoff_loop]; pres.
  - apply tradeoff_step_track.
  - apply IH.
Qed.

Lemma update_knock_out_track sp rs :
  preserves R_track (update_model (knock_out_members sp 0 rs)).
Proof. intros w. apply R_scoped_track, knock_out_members_scoped. Qed.

Lemma knockout_solve_track G fraction sp :
  preserves R_track (knockout_solve G fraction sp).
Proof.
  unfold knockout_solve. pres; auto with pres.
  - apply update_knock_out_track.
  - apply with_model_track. pres; auto with pres.
  - destruct (negb _); pres; auto with pres.
Qed.

Lemma knockout_step_track G fraction method old sp :
  preserves R_track (knockout_step G fraction method old sp).
Proof.
  unfold knockout_step. apply with_model_track.
  pres; auto with pres. apply knockout_solve_track.
Qed.

Lemma knockout_loop_track G fraction method old sps : forall results,
  preserves R_track (knockout_loop G fraction method old sps results).
Proof.
  induction sps as [|sp rest IH]; intros results; cbn [knockout_loop]; pres.
  - apply knockout_step_track.
  - apply IH.
Qed.

Lemma results_table_model results it : preserves R_model (results_table results it).
Proof.
  intros w. unfold after, results_table, drop_column.
  destruct (mem_label _ _); reflexivity.
Qed.

Lemma install_bind {A B} (c : Py A) (f : A -> Py B) :
  preserves R_install c -> (forall a, preserves R_track (f a)) ->
  preserves R_scoped (c ≫= f).
Proof.
  intros Hc Hf w. unfold after. rewrite bind_unfold.
  specialize (Hc w). unfold after in Hc.
  destruct (c w) as [[a|e] w1]; simpl in *; apply R_install_scoped.
  - eapply R_install_then; [exact Hc|apply Hf].
  - exact Hc.
Qed.

Lemma community_ext (a b : Community) :
  core_eq a b -> co_bounds a = co_bounds b -> contexts a = contexts b -> a = b.
Proof.
  destruct a, b. unfold core_eq, co_bounds. simpl.
  intros (? & ? & ? & ? & ? & ?) [= ? ?] ?. subst. reflexivity.
Qed.

(** A scoped block puts the model back: completely, or up to the default
    bounds of [community_objective]. *)
Lemma with_model_restores {A} (body : Py A) w :
  preserves R_scoped body ->
  com (after (with_model body) w) = com w \/
  com (after (with_model body) w) = reset_min_community_growth (com w).
Proof.
  intros Hb. unfold after, with_model.
  specialize (Hb {| com := enter (com w); heap := heap w; trace := trace w |}).
  unfold after in Hb. destruct (body _) as [r w2]. simpl in *.
  destruct (Hb [] (contexts (com w)) eq_refl) as (h' & E' & C & B).
  rewrite app_nil_r in E'. unfold exit. rewrite E'.
  assert (Hcore : core_eq (undo_all h' (set_contexts (contexts (com w)) (com w2)))
                          (com w)).
  { eapply core_eq_trans; [|eapply core_eq_trans; [exact C|]].
    - apply undo_all_core. repeat split.
    - repeat split. }
  assert (Hcx : contexts (undo_all h' (set_contexts (contexts (com w)) (com w2)))
                = contexts (com w)).
  { rewrite undo_all_contexts. reflexivity. }
  destruct (reset_in_dec h') as [Hin|Hnin].
  - right. apply community_ext.
    + eapply core_eq_trans; [exact Hcore|]. repeat split.
    + rewrite undo_all_bounds_reset by exact Hin. reflexivity.
    + exact Hcx.
  - left. apply community_ext; [exact Hcore| |exact Hcx].
    rewrite undo_all_bounds_keep by exact Hnin.
    destruct B as [B|B]; [contradiction|]. exact B.
Qed.

Lemma cooperative_tradeoff_body_scoped mg fraction fluxes pfba :
  preserves R_scoped (cooperative_tradeoff_body mg fraction fluxes pfba).
Proof.
  unfold cooperative_tradeoff_body.
  do 6 (apply preserves_bind; [rel_side | solve [pres; auto with pres] | intros ?]).
  apply regularize_bind_scoped; intros _.
  pres; [apply tradeoff_loop_track|].
  match goal with |- preserves _ (match ?x with _ => _ end) =>
    destruct x as [|[? ?] [|? ?]] end; pres.
Qed.

Lemma knockout_species_body_scoped species_arg fraction method progress diag :
  preserves R_scoped
    (knockout_species_body species_arg fraction method progress diag).
Proof.
  unfold knockout_species_body.
  do 5 (apply preserves_bind; [rel_side | solve [pres; auto with pres] | intros ?]).
  apply regularize_bind_scoped; intros _.
  pres; auto with pres. cbv zeta. unfold knockout_sweep. pres.
  - apply knockout_loop_track.
  - apply model_track, results_table_model.
  - apply model_track, results_table_model.
Qed.

(** C5 (as amended): after a call of either driver, whether it returned or
    raised, the model is what it was before the call, except that the
    bounds of [community_objective] may have been reset to lower bound 0
    and no upper bound; the objective expression, the marker, the bounds
    of the members' constraints and of the reactions and the context
    stack are always those from before the call. *)
Theorem drivers_restore_model
    (w : World) (mg : MinGrowthSpec) (fraction : FractionArg)
    (fluxes pfba : bool) (species_arg : list string) (fr : Q)
    (method : string) (progress diag : bool) :
  let m1 := com (after (cooperative_tradeoff mg fraction fluxes pfba) w) in
  let m2 := com (after (knockout_species species_arg fr method progress diag) w) in
  (m1 = com w \/ m1 = reset_min_community_growth (com w)) /\
  (m2 = com w \/ m2 = reset_min_community_growth (com w)).
Proof.
  split.
  - apply with_model_restores, cooperative_tradeoff_body_scoped.
  - apply with_model_restores, knockout_species_body_scoped.
Qed.

(** ** The reentrancy guard *)

Lemma exit_enter m : exit (enter m) = m.
Proof. destruct m; reflexivity. Qed.

(** C8: a driver called on a model that carries a modification marker
    raises [AlreadyModifiedError] and leaves the model (bounds, objective,
    marker and all else), the store and the log as they were; nothing is
    returned besides the error. *)
Theorem drivers_reject_modified_model
    (w : World) (mg : MinGrowthSpec) (fraction : FractionArg)
    (fluxes pfba : bool) (species_arg : list string) (fr : Q)
    (method : string) (progress diag : bool) :
  modification (com w) <> None ->
  cooperative_tradeoff mg fraction fluxes pfba w = (Raise AlreadyModifiedError, w) /\
  knockout_species species_arg fr method progress diag w
    = (Raise AlreadyModifiedError, w).
Proof.
  intros Hm.
  assert (Hcheck : forall A (k : unit -> Py A),
             with_model (check_modification ≫= k) w = (Raise AlreadyModifiedError, w)).
  { intros A k. unfold with_model, check_modification.
    rewrite !bind_unfold. cbn [get_model com].
    replace (modification (enter (com w))) with (modification (com w)) by reflexivity.
    destruct (modification (com w)) as [mo|]; [|contradiction].
    cbn [raise com heap trace]. rewrite exit_enter. destruct w; reflexivity. }
  split; apply Hcheck.
Qed.

(** ** Progress reporting *)

Lemma bind_ext {A B} (c : Py A) (f g : A -> Py B) w :
  (forall a w1, f a w1 = g a w1) -> (c ≫= f) w = (c ≫= g) w.
Proof.
  intros H. rewrite !bind_unfold. destruct (c w) as [[a|e] w1]; [apply H|reflexivity].
Qed.

Lemma with_model_ext {A} (b1 b2 : Py A) w :
  (forall w1, b1 w1 = b2 w1) -> with_model b1 w = with_model b2 w.
Proof. intros H. unfold with_model. rewrite H. reflexivity. Qed.

(** The sweep uses its iterable only through the elements it yields. *)
Lemma knockout_sweep_iterate it1 it2 G fraction method old diag w :
  iterate it1 = iterate it2 ->
  knockout_sweep it1 G fraction method old diag w
  = knockout_sweep it2 G fraction method old diag w.
Proof.
  intros E. unfold knockout_sweep, results_table. rewrite E. reflexivity.
Qed.

(** C10: with [progress=True] the knockout driver does exactly what it
    does with [progress=False]: the same result (table or error), and the
    same final model, store and log. *)
Theorem knockout_species_progress_irrelevant
    (species_arg : list string) (fraction : Q) (method : string)
    (diag : bool) (w : World) :
  knockout_species species_arg fraction method true diag w
  = knockout_species species_arg fraction method false diag w.
Proof.
  unfold knockout_species, knockout_species_body.
  apply with_model_ext. intros w1.
  do 7 (apply bind_ext; intros ? ?). cbv zeta.
  apply knockout_sweep_iterate. reflexivity.
Qed.

(** ** The reporting transform *)

Lemma deref_app_l (h : list Series) s l :
  l < length h -> deref (h ++ [s]) l = deref h l.
Proof. intros Hl. unfold deref. rewrite lookup_app_l by exact Hl. reflexivity. Qed.

Lemma deref_app_new (h : list Series) s : deref (h ++ [s]) (length h) = s.
Proof. unfold deref. rewrite list_lookup_middle by reflexivity. reflexivity. Qed.

Lemma insert_app_new (h : list Series) s s' :
  <[length h := s']> (h ++ [s]) = h ++ [s'].
Proof.
  rewrite insert_app_r_alt by lia. rewrite Nat.sub_diag. reflexivity.
Qed.


(** Runs the primitive steps of a computation. *)
Ltac py_run :=
  repeat first
    [ rewrite bind_unfold
    | progress cbn [read alloc write log raise get_model update_model
                    mret Py_ret heap com trace] ].

(** What [report] does, flag by flag. *)
Lemma report_run method old new w :
  old < length (heap w) -> new < length (heap w) ->
  report method old new w =
    let N := deref (heap w) new in
    let O := deref (heap w) old in
    match contains "change" method, contains "relative" method with
    | true, true =>
        (Ok (length (heap w)),
         {| com := com w; trace := trace w;
            heap := heap w ++ [series_div (series_sub N O) O] |})
    | true, false =>
        (Ok (length (heap w)),
         {| com := com w; trace := trace w;
            heap := heap w ++ [series_sub N O] |})
    | false, true =>
        (Ok new,
         {| com := com w; trace := trace w;
            heap := <[new := series_div N O]> (heap w) |})
    | false, false => (Ok new, w)
    end.
Proof.
  intros Ho Hn. unfold report.
  destruct (contains "change" method), (contains "relative" method); py_run.
  - rewrite deref_app_new, deref_app_l by exact Ho.
    rewrite insert_app_new. reflexivity.
  - reflexivity.
  - reflexivity.
  - reflexivity.
Qed.

(** ** Expansion keeps the value of an expression *)

Local Open Scope Q_scope.

Lemma prod_compat (rho : string -> Q) (xs : list string) : forall a b : Q,
  a == b ->
  fold_left (fun acc x => acc * rho x) xs a
  == fold_left (fun acc x => acc * rho x) xs b.
Proof.
  induction xs as [|x xs IH]; intros a b E; simpl; [exact E|].
  apply IH. rewrite E. reflexivity.
Qed.

Lemma prod_scale (rho : string -> Q) (xs : list string) : forall a : Q,
  fold_left (fun acc x => acc * rho x) xs a
  == a * fold_left (fun acc x => acc * rho x) xs 1.
Proof.
  induction xs as [|x xs IH]; intros a; simpl; [ring|].
  rewrite IH, (IH (1 * rho x)). ring.
Qed.

Lemma eval_mono_expr (rho : string -> Q) m : eval rho (mono_expr m) = mono_eval rho m.
Proof.
  unfold mono_expr, mono_eval. destruct m as [c xs]. simpl.
  change c with (eval rho (ENum c)) at 2. generalize (ENum c).
  induction xs as [|x xs IH]; intros e; simpl; [reflexivity|].
  rewrite IH. reflexivity.
Qed.

Lemma eval_of_poly (rho : string -> Q) p : eval rho (of_poly p) == poly_eval rho p.
Proof.
  unfold of_poly.
  assert (H : forall acc, eval rho (fold_left (fun acc m => EAdd acc (mono_expr m)) p acc)
                          == eval rho acc + poly_eval rho p).
  { induction p as [|m p IH]; intros acc; simpl; [ring|].
    rewrite IH. simpl. rewrite eval_mono_expr. ring. }
  rewrite H. simpl. ring.
Qed.

Lemma mono_eval_mul (rho : string -> Q) m1 m2 :
  mono_eval rho (mono_mul m1 m2) == mono_eval rho m1 * mono_eval rho m2.
Proof.
  unfold mono_eval, mono_mul. destruct m1 as [c1 x1], m2 as [c2 x2]. simpl.
  rewrite fold_left_app.
  rewrite (prod_scale rho x2 (fold_left _ x1 (c1 * c2))).
  rewrite (prod_scale rho x1 (c1 * c2)).
  rewrite (prod_scale rho x1 c1), (prod_scale rho x2 c2). ring.
Qed.

Lemma poly_eval_app (rho : string -> Q) p q :
  poly_eval rho (p ++ q) == poly_eval rho p + poly_eval rho q.
Proof.
  induction p as [|m p IH]; simpl; [ring|]. rewrite IH. ring.
Qed.

Lemma poly_eval_scale (rho : string -> Q) m q :
  poly_eval rho (map (mono_mul m) q) == mono_eval rho m * poly_eval rho q.
Proof.
  induction q as [|m' q IH]; simpl; [ring|].
  rewrite IH, mono_eval_mul. ring.
Qed.

Lemma poly_eval_mul (rho : string -> Q) p q :
  poly_eval rho (poly_mul p q) == poly_eval rho p * poly_eval rho q.
Proof.
  unfold poly_mul. induction p as [|m p IH]; simpl; [ring|].
  rewrite poly_eval_app, poly_eval_scale, IH. ring.
Qed.

Lemma poly_eval_neg (rho : string -> Q) p : poly_eval rho (poly_neg p) == - poly_eval rho p.
Proof.
  unfold poly_neg. induction p as [|[c xs] p IH]; simpl; [ring|].
  rewrite IH. unfold mono_eval. simpl.
  rewrite (prod_scale rho xs (- c)), (prod_scale rho xs c). ring.
Qed.

Lemma poly_eval_to_poly (rho : string -> Q) e : poly_eval rho (to_poly e) == eval rho e.
Proof.
  induction e; simpl.
  - reflexivity.
  - unfold mono_eval. simpl. ring.
  - unfold mono_eval. simpl. ring.
  - rewrite poly_eval_app, IHe1, IHe2. reflexivity.
  - rewrite poly_eval_mul, IHe1, IHe2. reflexivity.
  - rewrite poly_eval_neg, IHe. reflexivity.
  - rewrite poly_eval_mul, IHe. reflexivity.
Qed.

Lemma eval_expand (rho : string -> Q) e : eval rho (expand e) == eval rho e.
Proof. unfold expand. rewrite eval_of_poly. apply poly_eval_to_poly. Qed.

Local Close Scope Q_scope.

(** ** The regulariser *)

Lemma active_variables_run (vs : list OptVar) (w : World) :
  forallb is_bounded vs = true ->
  active_variables vs w = (Ok (List.filter is_active vs), w).
Proof.
  induction vs as [|v vs IH]; cbn [active_variables forallb List.filter];
    [reflexivity|].
  unfold is_bounded at 1, is_active at 1.
  destruct (v_ub v) as [ub|], (v_lb v) as [lb|]; try discriminate.
  cbn [andb]. intros Hb. rewrite bind_unfold, (IH Hb).
  destruct (Qle_bool (ub - lb) eps); reflexivity.
Qed.

Lemma eval_sum_symbols (rho : string -> Q) (vs : list OptVar) :
  (eval rho (sum_symbols vs)
   == fold_right (fun v acc => rho (v_name v) + acc) 0 vs)%Q.
Proof.
  unfold sum_symbols.
  assert (H : forall e,
             (eval rho (fold_left (fun acc v => EAdd acc (ESym (v_name v))) vs e)
              == eval rho e + fold_right (fun v acc => rho (v_name v) + acc) 0 vs)%Q).
  { induction vs as [|v vs IH]; intros e; simpl; [ring|].
    rewrite IH. simpl. ring. }
  rewrite H. simpl. ring.
Qed.

Lemma l2_terms_run (n : nat) (members : list string) : forall (l2 : Expr) (w : World),
  members_ready (constraints (com w)) members ->
  exists e,
    l2_terms n members l2 w = (Ok e, w) /\
    forall rho,
      (eval rho e
       == eval rho l2 +
          fold_right
            (fun sp acc =>
               match find_constraint (objective_name sp) (constraints (com w)) with
               | Some c => spec_member_term rho n c + acc
               | None => acc
               end) 0 members)%Q.
Proof.
  induction members as [|sp rest IH]; intros l2 w Hr; cbn [l2_terms].
  - exists l2. split; [reflexivity|]. intros rho. simpl. ring.
  - inversion Hr as [|? ? (c & Hc & Hb & Ha) Hrest]; subst.
    unfold get_constraint. py_run. rewrite Hc. py_run.
    rewrite (active_variables_run _ _ Hb).
    destruct (List.filter is_active (c_variables c)) as [|v vs] eqn:Ef;
      [contradiction|].
    destruct (IH (EAdd l2 (expand (ESquare
                (EMul (ENum (inject_Z (Z.of_nat n))) (sum_symbols (v :: vs))))))
                w Hrest) as (e & He & Hv).
    exists e. split; [exact He|].
    intros rho. rewrite Hv. cbn [fold_right]. rewrite Hc.
    cbn [eval]. rewrite eval_expand. cbn [eval].
    unfold spec_member_term. rewrite Ef, eval_sum_symbols. ring.
Qed.

Lemma record_undo_co_bounds u m : co_bounds (record_undo u m) = co_bounds m.
Proof. unfold record_undo. destruct (contexts m); reflexivity. Qed.

Lemma record_undo_constraints u m : constraints (record_undo u m) = constraints m.
Proof. unfold record_undo. destruct (contexts m); reflexivity. Qed.

Lemma record_undo_species u m : species (record_undo u m) = species m.
Proof. unfold record_undo. destruct (contexts m); reflexivity. Qed.

Lemma record_undo_objective u m : objective (record_undo u m) = objective m.
Proof. unfold record_undo. destruct (contexts m); reflexivity. Qed.

Lemma set_objective_co_bounds e m : co_bounds (set_objective e m) = co_bounds m.
Proof. unfold set_objective. apply (record_undo_co_bounds _ m). Qed.

Lemma set_modification_co_bounds mo m :
  co_bounds (set_modification mo m) = co_bounds m.
Proof. unfold set_modification. apply (record_undo_co_bounds _ m). Qed.

Lemma set_modification_objective mo m :
  objective (set_modification mo m) = objective m.
Proof. unfold set_modification. apply (record_undo_objective _ m). Qed.

Lemma regularize_l2_norm_run (min_growth : Q) (w : World) :
  lb_admitted min_growth (com w) = true ->
  l2_ready (com w) ->
  exists l2,
    regularize_l2_norm min_growth w =
      (Ok tt,
       {| com := set_modification (Some "l2 norm")
                   (set_objective (ENeg l2)
                      (record_undo UResetMinCommunityGrowth
                         (set_co_lb (Some min_growth) (com w))));
          heap := heap w; trace := trace w |}) /\
    forall rho, (eval rho l2 == spec_l2_sum rho (com w))%Q.
Proof.
  intros Ha Hr. unfold regularize_l2_norm.
  rewrite bind_unfold, assign_co_lb_run, Ha. py_run.
  set (m1 := record_undo UResetMinCommunityGrowth (set_co_lb (Some min_growth) (com w))).
  assert (Hcs : constraints m1 = constraints (com w)).
  { unfold m1. rewrite record_undo_constraints. reflexivity. }
  assert (Hsp : species m1 = species (com w)).
  { unfold m1. rewrite record_undo_species. reflexivity. }
  destruct (l2_terms_run (length (species m1)) (species m1) Zero
              {| com := m1; heap := heap w; trace := trace w |}) as (e & He & Hv).
  { cbn [com]. rewrite Hcs, Hsp. exact Hr. }
  rewrite He. py_run. exists e. split; [reflexivity|].
  intros rho. rewrite Hv. cbn [com eval]. unfold spec_l2_sum.
  rewrite Hcs, Hsp. ring.
Qed.

(** C7 (as amended): when [min_growth] does not exceed the upper bound of
    [community_objective] and every member's objective constraint is
    there with bounded variables, one of them wider than 1e-6,
    [regularize_l2_norm] sets the lower bound of [community_objective] to
    [min_growth], makes the objective the negation of the sum, over the
    member species, of the squares of the member count times the sum of
    the member's objective-constraint variables whose bound interval is
    wider than 1e-6, and marks the model with "l2 norm".  When
    [min_growth] exceeds the upper bound, the write of the lower bound is
    refused with [ValueError] and nothing at all is changed. *)
Theorem regularize_l2_norm_spec (min_growth : Q) (w : World) :
  (lb_admitted min_growth (com w) = true ->
   l2_ready (com w) ->
   exists w',
     regularize_l2_norm min_growth w = (Ok tt, w') /\
     co_lb (com w') = Some min_growth /\
     (forall rho, (eval rho (objective (com w')) == - spec_l2_sum rho (com w))%Q) /\
     modification (com w') = Some "l2 norm" /\
     co_ub (com w') = co_ub (com w) /\
     heap w' = heap w /\ trace w' = trace w) /\
  (lb_admitted min_growth (com w) = false ->
   regularize_l2_norm min_growth w = (Raise ValueError, w)).
Proof.
  split.
  - intros Ha Hr.
    destruct (regularize_l2_norm_run min_growth w Ha Hr) as (l2 & E & Hv).
    eexists. split; [exact E|]. cbn [com heap trace].
    assert (Hb : co_bounds (set_modification (Some "l2 norm")
                   (set_objective (ENeg l2)
                      (record_undo UResetMinCommunityGrowth
                         (set_co_lb (Some min_growth) (com w)))))
                 = (Some min_growth, co_ub (com w))).
    { rewrite set_modification_co_bounds, set_objective_co_bounds,
        record_undo_co_bounds. reflexivity. }
    injection Hb as Hlb Hub.
    repeat split.
    + exact Hlb.
    + intros rho. rewrite set_modification_objective.
      cbn [set_objective objective set_objective_raw eval].
      rewrite Hv. reflexivity.
    + exact Hub.
  - intros Ha. unfold regularize_l2_norm.
    rewrite bind_unfold, assign_co_lb_run, Ha. reflexivity.
Qed.

(** ** The sweep over fractions *)

(** One pass of the sweep, spelled out. *)
Lemma tradeoff_step_run (G : Q) (fluxes pfba : bool) (fr : Q) (w : World) :
  let m1 := set_co_lb (Some (fr * G)%Q) (com w) in
  let r := solver_solve m1 fluxes pfba in
  let sol := {| status := sr_status r; members_growth_rate := length (heap w) |} in
  let m2 := set_co_ub (Some ((101 # 100) * fr * G)%Q)
              (set_co_lb (Some ((99 # 100) * fr * G)%Q) m1) in
  let r' := solver_crossover m2 r in
  let sol' := {| status := sr_status r';
                 members_growth_rate := Datatypes.S (length (heap w)) |} in
  tradeoff_step G fluxes pfba fr w =
    if negb (String.eqb (sr_status r) OPTIMAL) then
      (Ok sol',
       {| com := m2;
          heap := heap w ++ [sr_growth_rate r; sr_growth_rate r'];
          trace := trace w ++ [EvSolve m1 fluxes pfba sol; EvCrossover m2 sol sol'] |})
    else
      (Ok sol,
       {| com := m1;
          heap := heap w ++ [sr_growth_rate r];
          trace := trace w ++ [EvSolve m1 fluxes pfba sol] |}).
Proof.
  cbv zeta. unfold tradeoff_step, solve, crossover, new_solution. py_run.
  cbn [status members_growth_rate].
  destruct (negb _); py_run; [|reflexivity].
  cbn [status members_growth_rate]. rewrite deref_app_new.
  rewrite length_app, Nat.add_1_r, <- !app_assoc. cbn [app].
  destruct (solver_solve _ _ _); reflexivity.
Qed.

Lemma solves_app t1 t2 : solves (t1 ++ t2) = solves t1 ++ solves t2.
Proof. unfold solves. apply flat_map_app. Qed.

(** The sweep never raises; it yields one row per fraction, in the order
    of the fractions, and calls [solve] once per fraction with the lower
    bound [fr * G]. *)
Lemma tradeoff_loop_run (G : Q) (fluxes pfba : bool) (fraction : list Q) :
  forall (results : list (Q * Solution)) (w : World),
  exists rows t w',
    tradeoff_loop G fluxes pfba fraction results w = (Ok rows, w') /\
    map fst rows = map fst results ++ fraction /\
    trace w' = trace w ++ t /\
    map co_lb (solves t) = map (fun fr => Some (fr * G)%Q) fraction /\
    Forall (fun m => co_ub m = co_ub (com w)) (solves_before_recovery t).
Proof.
  induction fraction as [|fr rest IH]; intros results w; cbn [tradeoff_loop].
  - exists results, [], w. rewrite !app_nil_r. repeat split. constructor.
  - rewrite bind_unfold, tradeoff_step_run. cbv zeta.
    destruct (negb _).
    + match goal with |- context [tradeoff_loop _ _ _ _ ?rs ?w1] =>
        destruct (IH rs w1) as (rows & t & w' & E & Hrows & Ht & Hlb & Hub) end.
      eexists rows, _, w'. rewrite E. split; [reflexivity|].
      split; [|split; [|split]].
      * rewrite Hrows, map_app, <- app_assoc. reflexivity.
      * rewrite Ht. cbn [trace]. rewrite <- app_assoc. reflexivity.
      * cbn [solves flat_map app map]. f_equal. exact Hlb.
      * cbn [solves_before_recovery]. constructor; [reflexivity|constructor].
    + match goal with |- context [tradeoff_loop _ _ _ _ ?rs ?w1] =>
        destruct (IH rs w1) as (rows & t & w' & E & Hrows & Ht & Hlb & Hub) end.
      eexists rows, _, w'. rewrite E. split; [reflexivity|].
      split; [|split; [|split]].
      * rewrite Hrows, map_app, <- app_assoc. reflexivity.
      * rewrite Ht. cbn [trace]. rewrite <- app_assoc. reflexivity.
      * cbn [solves flat_map app map]. f_equal. exact Hlb.
      * cbn [solves_before_recovery]. constructor; [reflexivity|exact Hub].
Qed.

(** *** Steps that are quiet *)

Lemma get_constraint_same name : preserves R_same (get_constraint name).
Proof.
  unfold get_constraint. pres. destruct (find_constraint _ _); pres.
Qed.

Lemma check_modification_same : preserves R_same check_modification.
Proof. unfold check_modification. pres. destruct (modification _); pres. Qed.

Lemma _format_min_growth_same spec members :
  preserves R_same (_format_min_growth spec members).
Proof.
  induction members as [|sp rest IH]; cbn [_format_min_growth]; [pres|].
  destruct spec; [pres; exact IH|].
  destruct (lookup_growth _ _); pres. exact IH.
Qed.

Lemma active_variables_same vs : preserves R_same (active_variables vs).
Proof.
  induction vs as [|v rest IH]; cbn [active_variables]; [pres|].
  destruct (v_ub v), (v_lb v); pres. exact IH.
Qed.

Lemma l2_terms_same scale members : forall l2,
  preserves R_same (l2_terms scale members l2).
Proof.
  induction members as [|sp rest IH]; intros l2; cbn [l2_terms]; [pres|].
  pres; [apply get_constraint_same|apply active_variables_same|].
  destruct a0; [pres|apply IH].
Qed.

Lemma same_quiet {A} (c : Py A) : preserves R_same c -> preserves R_quiet c.
Proof. apply preserves_weaken, R_same_quiet. Qed.

Lemma update_quiet (f : Community -> Community) :
  (forall m, co_ub (f m) = co_ub m) -> preserves R_quiet (update_model f).
Proof. intros Hf w. repeat split. apply Hf. Qed.

Lemma co_ub_of_bounds m1 m2 : co_bounds m1 = co_bounds m2 -> co_ub m1 = co_ub m2.
Proof. unfold co_bounds. congruence. Qed.

Lemma _apply_min_growth_quiet l : preserves R_quiet (_apply_min_growth l).
Proof.
  induction l as [|[sp q] rest IH]; cbn [_apply_min_growth]; pres.
  - apply same_quiet, get_constraint_same.
  - apply update_quiet. intros m. cbn [set_constraints co_ub].
    apply co_ub_of_bounds, record_undo_co_bounds.
  - exact IH.
Qed.

Lemma assign_co_lb_quiet lb : preserves R_quiet (assign_co_lb lb).
Proof.
  intros w. unfold after. rewrite assign_co_lb_run.
  destruct (lb_admitted lb (com w)); repeat split.
Qed.

Lemma regularize_l2_norm_quiet min_growth :
  preserves R_quiet (regularize_l2_norm min_growth).
Proof.
  unfold regularize_l2_norm. pres.
  - apply assign_co_lb_quiet.
  - apply update_quiet. intros m. apply co_ub_of_bounds, record_undo_co_bounds.
  - apply same_quiet, l2_terms_same.
  - apply update_quiet. intros m. apply co_ub_of_bounds, set_objective_co_bounds.
  - apply update_quiet. intros m. apply co_ub_of_bounds, set_modification_co_bounds.
Qed.

(** Reads a relation off a run. *)
Lemma preserves_run (R : World -> World -> Prop) {A} (c : Py A) w r w' :
  preserves R c -> c w = (r, w') -> R w w'.
Proof. intros Hc E. specialize (Hc w). unfold after in Hc. rewrite E in Hc. exact Hc. Qed.

(** *** Sorting *)

Lemma insert_sorted_perm x l : Permutation (insert_sorted x l) (x :: l).
Proof.
  induction l as [|y l IH]; simpl; [reflexivity|].
  destruct (Qle_bool x y); [reflexivity|].
  rewrite IH. apply perm_swap.
Qed.

Lemma np_sort_perm l : Permutation (np_sort l) l.
Proof.
  induction l as [|x l IH]; simpl; [reflexivity|].
  rewrite insert_sorted_perm, IH. reflexivity.
Qed.

Lemma insert_sorted_sorted x l :
  StronglySorted Qle l -> StronglySorted Qle (insert_sorted x l).
Proof.
  induction 1 as [|y l Hs IH Hall]; simpl.
  - repeat constructor.
  - destruct (Qle_bool x y) eqn:E.
    + apply Qle_bool_iff in E. constructor; [constructor; assumption|].
      constructor; [exact E|].
      eapply List.Forall_impl; [|exact Hall]. intros z Hz. simpl in Hz.
      eapply Qle_trans; eassumption.
    + assert (Hyx : (y <= x)%Q).
      { apply Qlt_le_weak, Qnot_le_lt. intros H.
        apply Qle_bool_iff in H. congruence. }
      constructor; [exact IH|].
      eapply Permutation_Forall; [symmetry; apply insert_sorted_perm|].
      constructor; assumption.
Qed.

Lemma np_sort_sorted l : StronglySorted Qle (np_sort l).
Proof.
  induction l as [|x l IH]; simpl; [constructor|].
  apply insert_sorted_sorted, IH.
Qed.

Lemma rev_descending l : StronglySorted Qle l -> descending (rev l).
Proof.
  unfold descending. induction 1 as [|x l Hs IH Hall]; simpl; [constructor|].
  revert IH. generalize (rev_involutive l).
  assert (Hall' : Forall (fun y => (x <= y)%Q) (rev l)).
  { eapply Permutation_Forall; [apply Permutation_rev|exact Hall]. }
  clear Hall Hs. revert Hall'. generalize (rev l) as r. intros r Hall _ Hr.
  induction Hr as [|y r Hr IHr Hy]; simpl.
  - repeat constructor.
  - inversion Hall; subst. constructor; [apply IHr; assumption|].
    apply Forall_app. split; [exact Hy|]. repeat constructor. assumption.
Qed.

(** *** The members' lower bounds *)

Lemma objective_name_inj a b : objective_name a = objective_name b -> a = b.
Proof. unfold objective_name. simpl. intros [= H]. exact H. Qed.

Lemma find_constraint_set_same name lb cs c :
  find_constraint name cs = Some c ->
  exists c', find_constraint name (set_constraint_lb name lb cs) = Some c' /\
             c_lb c' = lb.
Proof.
  induction cs as [|c0 cs IH]; simpl; [discriminate|].
  destruct (String.eqb (c_name c0) name) eqn:E; simpl; rewrite E.
  - intros _. eexists. split; reflexivity.
  - exact IH.
Qed.

Lemma find_constraint_set_other name name' lb cs :
  name <> name' ->
  find_constraint name (set_constraint_lb name' lb cs) = find_constraint name cs.
Proof.
  intros Hne. induction cs as [|c0 cs IH]; simpl; [reflexivity|].
  destruct (String.eqb (c_name c0) name') eqn:E'; simpl.
  - apply String.eqb_eq in E'.
    destruct (String.eqb (c_name c0) name) eqn:E; [|reflexivity].
    apply String.eqb_eq in E. congruence.
  - destruct (String.eqb (c_name c0) name); [reflexivity|exact IH].
Qed.

Lemma _format_min_growth_inv spec members w l w' :
  _format_min_growth spec members w = (Ok l, w') ->
  w' = w /\
  l = map (fun sp => (sp, default 0%Q (min_growth_of spec sp))) members /\
  forall sp, In sp members -> exists q, min_growth_of spec sp = Some q.
Proof.
  revert l w'. induction members as [|sp rest IH]; intros l w';
    cbn [_format_min_growth].
  - intros [= <- <-]. repeat split. intros sp [].
  - destruct spec as [q|entries].
    + intros E. apply bind_ok_inv in E as (tl & w1 & E1 & E2).
      injection E2 as <- <-. destruct (IH _ _ E1) as (-> & -> & Hq).
      repeat split. intros sp' _. exists q. reflexivity.
    + destruct (lookup_growth sp entries) as [q|] eqn:L; [|discriminate].
      intros E. apply bind_ok_inv in E as (tl & w1 & E1 & E2).
      injection E2 as <- <-. destruct (IH _ _ E1) as (-> & -> & Hq).
      split; [reflexivity|]. split.
      * cbn [map min_growth_of]. rewrite L. reflexivity.
      * intros sp' [<-|Hin]; [exists q; exact L|apply Hq, Hin].
Qed.

Lemma _apply_min_growth_lower_bounds (g : string -> Q) (members : list string) :
  forall w w',
    _apply_min_growth (map (fun sp => (sp, g sp)) members) w = (Ok tt, w') ->
    forall sp,
      (In sp members -> member_lower_bound (com w') sp = Some (g sp)) /\
      (~ In sp members ->
       member_lower_bound (com w') sp = member_lower_bound (com w) sp).
Proof.
  induction members as [|sp0 rest IH]; intros w w'; cbn [map _apply_min_growth].
  - intros [= <-] sp. split; [intros []|reflexivity].
  - unfold get_constraint. py_run.
    destruct (find_constraint (objective_name sp0) (constraints (com w)))
      as [c|] eqn:F; [|discriminate].
    py_run. intros E sp. specialize (IH _ _ E sp). destruct IH as [IH1 IH2].
    cbn [com] in IH2.
    assert (Hhead : In sp rest \/ ~ In sp rest)
      by (destruct (in_dec string_dec sp rest); auto).
    split.
    + intros [<-|Hin]; [|apply IH1, Hin].
      destruct Hhead as [Hin|Hnin]; [apply IH1, Hin|].
      rewrite (IH2 Hnin). unfold member_lower_bound.
      cbn [set_constraints constraints].
      destruct (find_constraint_set_same _ (Some (g sp0)) _ _ F) as (c' & -> & Hc').
      exact Hc'.
    + intros Hnin. rewrite IH2 by (intros Hin; apply Hnin; right; exact Hin).
      unfold member_lower_bound.
      cbn [set_constraints constraints].
      rewrite find_constraint_set_other; [reflexivity|].
      intros Heq. apply objective_name_inj in Heq. apply Hnin. left. congruence.
Qed.

Lemma optimize_with_retry_inv msg w G w' :
  optimize_with_retry msg w = (Ok G, w') ->
  solver_optimize_with_retry (com w) = Some G /\
  w' = {| com := com w; heap := heap w;
          trace := trace w ++ [EvOptimizeWithRetry (com w) msg] |}.
Proof.
  unfold optimize_with_retry. py_run.
  destruct (solver_optimize_with_retry (com w)) as [v|]; py_run; [|discriminate].
  intros [= <- <-]. split; reflexivity.
Qed.

(** A successful call of [cooperative_tradeoff], taken apart. *)
Lemma cooperative_tradeoff_inv mg fraction fluxes pfba w r w' :
  cooperative_tradeoff mg fraction fluxes pfba w = (Ok r, w') ->
  exists m0 G rows t,
    solver_optimize_with_retry m0 = Some G /\
    objective m0 = community_objective_expr /\
    (forall sp, In sp (species (com w)) ->
       exists q, min_growth_of mg sp = Some q /\
                 member_lower_bound m0 sp = Some q) /\
    map fst rows = normalize_fraction fraction /\
    r = match rows with
        | [(_, sol)] => BareSolution sol
        | _ => TradeoffTable rows
        end /\
    trace w' = trace w ++
      EvOptimizeWithRetry m0 "could not get community growth rate." :: t /\
    map co_lb (solves t)
      = map (fun fr => Some (fr * G)%Q) (normalize_fraction fraction) /\
    Forall (fun m => co_ub m = co_ub (com w)) (solves_before_recovery t).
Proof.
  unfold cooperative_tradeoff. intros E.
  apply with_model_inv in E as (w2 & E & ->).
  unfold cooperative_tradeoff_body in E.
  apply bind_ok_inv in E as (u & wa & Echeck & E).
  apply bind_ok_inv in E as (m & wb & Eget & E).
  apply bind_ok_inv in E as (mgl & wc & Efmt & E).
  apply bind_ok_inv in E as (u2 & wd & Eapp & E).
  apply bind_ok_inv in E as (u3 & we & Eobj & E).
  apply bind_ok_inv in E as (G & wf & Eowr & E).
  cbv zeta in E.
  apply bind_ok_inv in E as (u4 & wg & Ereg & E).
  apply bind_ok_inv in E as (rows & wh & Eloop & E).
  pose proof (preserves_run _ _ _ _ _ check_modification_same Echeck) as Hwa.
  unfold R_same in Hwa. subst wa.
  injection Eget as <- <-.
  apply _format_min_growth_inv in Efmt as (-> & -> & Hq).
  pose proof (preserves_run _ _ _ _ _ (_apply_min_growth_quiet _) Eapp)
    as (Ht1 & _ & Hu1).
  destruct u2.
  pose proof (_apply_min_growth_lower_bounds
                (fun sp => default 0%Q (min_growth_of mg sp)) _ _ _ Eapp) as Hlb.
  injection Eobj as _ <-.
  apply optimize_with_retry_inv in Eowr as (HG & ->).
  pose proof (preserves_run _ _ _ _ _ (regularize_l2_norm_quiet _) Ereg)
    as (Ht2 & _ & Hu2).
  destruct (tradeoff_loop_run G fluxes pfba (normalize_fraction fraction) [] wg)
    as (rows' & t & w'' & Eloop' & Hrows & Ht & Hlbs & Hubs).
  rewrite Eloop in Eloop'. injection Eloop' as <- <-.
  assert (Hr : r = match rows with
                   | [(_, sol)] => BareSolution sol
                   | _ => TradeoffTable rows
                   end /\ w2 = wh).
  { destruct rows as [|[? ?] [|? ?]]; injection E as <- <-; split; reflexivity. }
  destruct Hr as [Hr ->]. clear E.
  eexists _, G, rows, t. split; [exact HG|].
  cbn [com heap trace] in *.
  split; [reflexivity|]. split; [|split; [exact Hrows|split; [|split; [|split]]]].
  - intros sp Hsp. destruct (Hq sp Hsp) as (q & Hq').
    exists q. split; [exact Hq'|].
    unfold member_lower_bound. cbn [set_objective set_objective_raw constraints].
    rewrite record_undo_constraints.
    destruct (Hlb sp) as [Hlb1 _]. unfold member_lower_bound in Hlb1.
    rewrite (Hlb1 Hsp), Hq'. reflexivity.
  - exact Hr.
  - rewrite Ht, Ht2. cbn [trace]. rewrite Ht1. cbn [trace].
    rewrite <- app_assoc. reflexivity.
  - exact Hlbs.
  - eapply List.Forall_impl; [|exact Hubs]. intros m0 Hm0.
    rewrite Hm0, Hu2. cbn [com].
    rewrite (co_ub_of_bounds _ _ (set_objective_co_bounds _ _)).
    exact Hu1.
Qed.

(** C2 (as amended): [cooperative_tradeoff] returns a bare Solution when
    called with a scalar fraction or with a sequence of exactly one
    fraction; called with a sequence of any other length it returns a
    table with exactly one row per input fraction, the rows ordered by
    descending fraction whatever the input order. *)
Theorem cooperative_tradeoff_result_shape
    (mg : MinGrowthSpec) (fraction : FractionArg) (fluxes pfba : bool)
    (w w' : World) (r : TradeoffResult) :
  cooperative_tradeoff mg fraction fluxes pfba w = (Ok r, w') ->
  match fraction with
  | FracScalar q => exists sol, r = BareSolution sol
  | FracSized l =>
      if Nat.eqb (length l) 1 then exists sol, r = BareSolution sol
      else exists rows,
             r = TradeoffTable rows /\
             length rows = length l /\
             Permutation (map fst rows) l /\
             descending (map fst rows)
  end.
Proof.
  intros E.
  apply cooperative_tradeoff_inv in E
    as (m0 & G & rows & t & _ & _ & _ & Hrows & -> & _).
  destruct fraction as [q|l]; cbn [normalize_fraction] in Hrows.
  - destruct rows as [|[q' sol] [|? ?]]; try discriminate. eauto.
  - assert (Hlen : length rows = length l).
    { rewrite <- (length_map fst rows), Hrows, length_rev.
      apply Permutation_length, np_sort_perm. }
    destruct (Nat.eqb (length l) 1) eqn:E1.
    + apply Nat.eqb_eq in E1. rewrite E1 in Hlen.
      destruct rows as [|[q' sol] [|? ?]]; try discriminate. eauto.
    + apply Nat.eqb_neq in E1. exists rows. split; [|split; [exact Hlen|split]].
      * destruct rows as [|[q' sol] [|? ?]]; try reflexivity.
        exfalso. apply E1. rewrite <- Hlen. reflexivity.
      * rewrite Hrows, <- Permutation_rev. apply np_sort_perm.
      * rewrite Hrows. apply rev_descending, np_sort_sorted.
Qed.

(** C4 (as amended): in every per-fraction solve of the sweep the lower
    bound of [community_objective] is [fr * G]; its upper bound is the one
    the model had before the call (unbounded for a model that came with
    none) in every solve that no recovery precedes; and [G] is the optimal
    community growth rate found with the objective [community_objective]
    and with the caller's minimum growth of each member, not zero, as the
    lower bound of that member's constraint. *)
Theorem tradeoff_lower_bounds
    (mg : MinGrowthSpec) (fraction : FractionArg) (fluxes pfba : bool)
    (w w' : World) (r : TradeoffResult) :
  cooperative_tradeoff mg fraction fluxes pfba w = (Ok r, w') ->
  exists m0 G t,
    trace w' = trace w ++
      EvOptimizeWithRetry m0 "could not get community growth rate." :: t /\
    solver_optimize_with_retry m0 = Some G /\
    objective m0 = community_objective_expr /\
    (forall sp, In sp (species (com w)) ->
       exists q, min_growth_of mg sp = Some q /\
                 member_lower_bound m0 sp = Some q) /\
    map co_lb (solves t)
      = map (fun fr => Some (fr * G)%Q) (normalize_fraction fraction) /\
    Forall (fun m => co_ub m = co_ub (com w)) (solves_before_recovery t).
Proof.
  intros E.
  apply cooperative_tradeoff_inv in E
    as (m0 & G & rows & t & HG & Hobj & Hlb & _ & _ & Ht & Hlbs & Hubs).
  exists m0, G, t. auto 10.
Qed.

(** ** Recovery by crossover *)




(** ** The knockout table *)

Lemma drop_column_absent label df w df' w' :
  drop_column label df w = (Ok df', w') -> ~ In label (df_columns df').
Proof.
  unfold drop_column. destruct (mem_label label (df_columns df)); [|discriminate].
  intros [= <- _]. cbn [df_columns]. intros Hin.
  apply filter_In in Hin as [_ Hne].
  rewrite String.eqb_refl in Hne. discriminate.
Qed.

(** The table that [knockout_species] returns has no "medium" column. *)
Lemma knockout_species_no_medium species_arg fraction method progress diag w df w' :
  knockout_species species_arg fraction method progress diag w = (Ok df, w') ->
  ~ In "medium" (df_columns df).
Proof.
  unfold knockout_species. intros E.
  apply with_model_inv in E as (w2 & E & _).
  unfold knockout_species_body in E.
  do 7 (apply bind_ok_inv in E as (? & ? & _ & E)). cbv zeta in E.
  unfold knockout_sweep in E.
  do 2 (apply bind_ok_inv in E as (? & ? & _ & E)). cbv zeta in E.
  unfold results_table in E. eapply drop_column_absent, E.
Qed.

(** The [diag] flag has no effect on what [knockout_species] returns: the
    table whose diagonal was filled is dropped and a new one is built. *)
Lemma knockout_species_diag_irrelevant species_arg fraction method progress w :
  knockout_species species_arg fraction method progress false w
  = knockout_species species_arg fraction method progress true w.
Proof. reflexivity. Qed.

(** ** Element-wise arithmetic *)









(** ** How [regularize_l2_norm] fails *)

Lemma bind_raise_inv {A B} (c : Py A) (f : A -> Py B) w e w' :
  (c ≫= f) w = (Raise e, w') ->
  c w = (Raise e, w') \/
  exists a w1, c w = (Ok a, w1) /\ f a w1 = (Raise e, w').
Proof.
  rewrite bind_unfold. destruct (c w) as [[a|e0] w1]; intros E.
  - right. eauto.
  - left. injection E as -> ->. reflexivity.
Qed.

Lemma active_variables_unbounded (vs : list OptVar) (w : World) :
  forallb is_bounded vs = false ->
  active_variables vs w = (Raise TypeError, w).
Proof.
  induction vs as [|v vs IH]; cbn [active_variables forallb]; [discriminate|].
  unfold is_bounded at 1.
  destruct (v_ub v) as [ub|], (v_lb v) as [lb|]; try reflexivity.
  cbn [andb]. intros Hb. rewrite bind_unfold, (IH Hb). reflexivity.
Qed.

Lemma members_ready_no_failure cs sp :
  member_failure cs sp = None <->
  exists c, find_constraint (objective_name sp) cs = Some c /\
            forallb is_bounded (c_variables c) = true /\
            List.filter is_active (c_variables c) <> [].
Proof.
  unfold member_failure. split.
  - destruct (find_constraint _ cs) as [c|]; [|discriminate].
    destruct (forallb is_bounded (c_variables c)) eqn:Hb; [|discriminate].
    destruct (List.filter is_active (c_variables c)) eqn:E; [discriminate|].
    intros _. exists c. split; [reflexivity|]. split; [exact Hb|].
    rewrite E. intros H. discriminate H.
  - intros (c & -> & -> & Ha).
    destruct (List.filter is_active (c_variables c)); [contradiction|reflexivity].
Qed.

(** The loop over the members stops at the first member that fails. *)
Lemma l2_terms_fail (n : nat) (pre : list string) (sp : string)
    (rest : list string) (e : PyError) : forall (l2 : Expr) (w : World),
  members_ready (constraints (com w)) pre ->
  member_failure (constraints (com w)) sp = Some e ->
  l2_terms n (pre ++ sp :: rest) l2 w = (Raise e, w).
Proof.
  induction pre as [|sp0 pre IH]; intros l2 w Hr Hf.
  - cbn [app l2_terms]. unfold get_constraint. py_run.
    unfold member_failure in Hf.
    destruct (find_constraint (objective_name sp) (constraints (com w))) as [c|];
      py_run; [|injection Hf as <-; reflexivity].
    destruct (forallb is_bounded (c_variables c)) eqn:Hb.
    + rewrite (active_variables_run _ _ Hb).
      destruct (List.filter is_active (c_variables c)); [|discriminate].
      injection Hf as <-. reflexivity.
    + rewrite (active_variables_unbounded _ _ Hb).
      injection Hf as <-. reflexivity.
  - inversion Hr as [|? ? (c & Hc & Hb & Ha) Hrest]; subst.
    cbn [app l2_terms]. unfold get_constraint. py_run. rewrite Hc. py_run.
    rewrite (active_variables_run _ _ Hb).
    destruct (List.filter is_active (c_variables c)) as [|v vs]; [contradiction|].
    apply IH; assumption.
Qed.

(** X1: once its lower bound is accepted ([min_growth] does not exceed
    the upper bound of [community_objective]), [regularize_l2_norm]
    raises at the first member whose objective constraint is missing
    ([KeyError]), has a variable without a bound ([TypeError]) or has no
    variable wider than 1e-6 ([AttributeError]).  By then the lower bound
    is set to [min_growth]; the objective and the marker are still the
    old ones. *)
Theorem regularize_l2_norm_failure
    (min_growth : Q) (w : World) (pre : list string) (sp : string)
    (rest : list string) (e : PyError) :
  lb_admitted min_growth (com w) = true ->
  species (com w) = pre ++ sp :: rest ->
  members_ready (constraints (com w)) pre ->
  member_failure (constraints (com w)) sp = Some e ->
  exists w',
    regularize_l2_norm min_growth w = (Raise e, w') /\
    co_lb (com w') = Some min_growth /\
    co_ub (com w') = co_ub (com w) /\
    objective (com w') = objective (com w) /\
    modification (com w') = modification (com w) /\
    heap w' = heap w /\ trace w' = trace w.
Proof.
  intros Ha Hsp Hr Hf. unfold regularize_l2_norm.
  rewrite bind_unfold, assign_co_lb_run, Ha. py_run.
  rewrite record_undo_species. cbn [set_co_lb species]. rewrite Hsp.
  rewrite l2_terms_fail with (e := e).
  - eexists. split; [reflexivity|]. cbn [com heap trace].
    pose proof (record_undo_co_bounds UResetMinCommunityGrowth
                  (set_co_lb (Some min_growth) (com w))) as Hb.
    injection Hb as Hlb Hub.
    rewrite record_undo_objective.
    repeat split; try assumption.
    unfold record_undo. destruct (contexts _); reflexivity.
  - cbn [com]. rewrite record_undo_constraints. exact Hr.
  - cbn [com]. rewrite record_undo_constraints. exact Hf.
Qed.

(** ** The regulariser and the scopes around it *)

Lemma with_model_install {A} (body : Py A) w :
  preserves R_install body ->
  com (after (with_model body) w) = reset_min_community_growth (com w).
Proof.
  intros Hb. unfold after, with_model.
  specialize (Hb {| com := enter (com w); heap := heap w; trace := trace w |}).
  unfold after in Hb. destruct (body _) as [r w2]. simpl in *.
  destruct (Hb [] (contexts (com w)) eq_refl) as (h' & E' & C & Hin).
  rewrite app_nil_r in E'. unfold exit. rewrite E'.
  apply community_ext.
  - eapply core_eq_trans; [|eapply core_eq_trans; [exact C|]].
    + apply undo_all_core. repeat split.
    + repeat split.
  - rewrite undo_all_bounds_reset by exact Hin. reflexivity.
  - rewrite undo_all_contexts. reflexivity.
Qed.

Lemma lb_admitted_enter lb m : lb_admitted lb (enter m) = lb_admitted lb m.
Proof. reflexivity. Qed.

(** X2: when [regularize_l2_norm] runs inside a [with model:] block and
    its lower bound is accepted, then on leaving the block, whether the
    call returned or raised, the objective and the marker are back and
    the bounds of [community_objective] are 0 and unbounded, whatever they
    were before the block.  When the lower bound is refused, the call
    raises [ValueError] and the model after the block is exactly the one
    from before, bounds included. *)
Theorem regularize_l2_norm_scope_exit (min_growth : Q) (w : World) :
  (lb_admitted min_growth (com w) = true ->
   com (after (with_model (regularize_l2_norm min_growth)) w)
   = reset_min_community_growth (com w)) /\
  (lb_admitted min_growth (com w) = false ->
   with_model (regularize_l2_norm min_growth) w = (Raise ValueError, w)).
Proof.
  split; intros Ha.
  - unfold after, with_model.
    destruct (regularize_l2_norm_cases min_growth
                {| com := enter (com w); heap := heap w; trace := trace w |})
      as [[Hf _]|[_ Hi]].
    { cbn [com] in Hf. rewrite lb_admitted_enter in Hf. congruence. }
    unfold after in Hi. destruct (regularize_l2_norm _ _) as [r w2].
    cbn [snd com] in *.
    destruct (Hi [] (contexts (com w)) eq_refl) as (h' & E' & C & Hin).
    rewrite app_nil_r in E'. unfold exit. rewrite E'.
    apply community_ext.
    + eapply core_eq_trans; [|eapply core_eq_trans; [exact C|]].
      * apply undo_all_core. repeat split.
      * repeat split.
    + rewrite undo_all_bounds_reset by exact Hin. reflexivity.
    + rewrite undo_all_contexts. reflexivity.
  - unfold with_model, regularize_l2_norm.
    rewrite bind_unfold, assign_co_lb_run. cbn [com].
    rewrite lb_admitted_enter, Ha. cbn [com heap trace].
    rewrite exit_enter. destruct w; reflexivity.
Qed.

Lemma with_model_check_rejects {A} (k : unit -> Py A) (w : World) :
  modification (com w) <> None ->
  with_model (check_modification ≫= k) w = (Raise AlreadyModifiedError, w).
Proof.
  intros Hm. unfold with_model, check_modification.
  rewrite !bind_unfold. cbn [get_model com].
  replace (modification (enter (com w))) with (modification (com w)) by reflexivity.
  destruct (modification (com w)) as [mo|]; [|contradiction].
  cbn [raise com heap trace]. rewrite exit_enter. destruct w; reflexivity.
Qed.

(** X3: once [regularize_l2_norm] has returned on a model, the marker
    "l2 norm" it leaves makes both drivers refuse that model with
    [AlreadyModifiedError] (until a surrounding block is left). *)
Theorem regularize_l2_norm_blocks_drivers
    (min_growth : Q) (w w1 : World) (mg : MinGrowthSpec)
    (fraction : FractionArg) (fluxes pfba : bool) (species_arg : list string)
    (fr : Q) (method : string) (progress diag : bool) :
  regularize_l2_norm min_growth w = (Ok tt, w1) ->
  cooperative_tradeoff mg fraction fluxes pfba w1
    = (Raise AlreadyModifiedError, w1) /\
  knockout_species species_arg fr method progress diag w1
    = (Raise AlreadyModifiedError, w1).
Proof.
  intros E.
  assert (Hm : modification (com w1) <> None).
  { unfold regularize_l2_norm in E.
    do 5 (apply bind_ok_inv in E as (? & ? & _ & E)).
    injection E as <-. cbn [com]. unfold set_modification.
    cbn [set_modification_raw modification]. discriminate. }
  split; apply with_model_check_rejects, Hm.
Qed.

Lemma with_model_core {A} (body : Py A) w :
  preserves R_track body ->
  core_eq (com (after (with_model body) w)) (com w) /\
  contexts (com (after (with_model body) w)) = contexts (com w).
Proof.
  intros Hb. unfold after, with_model.
  specialize (Hb {| com := enter (com w); heap := heap w; trace := trace w |}).
  unfold after in Hb. destruct (body _) as [r w2]. simpl in *.
  destruct (Hb [] (contexts (com w)) eq_refl) as (h' & E' & C).
  rewrite app_nil_r in E'. unfold exit. rewrite E'. split.
  - eapply core_eq_trans; [|eapply core_eq_trans; [exact C|]].
    + apply undo_all_core. repeat split.
    + repeat split.
  - rewrite undo_all_contexts. reflexivity.
Qed.

(** X4: one pass of the knockout loop, whether it ends normally or with an
    error, leaves the reactions (the knocked-out ones are open again), the
    members' constraints, the objective, the marker and the context stack
    as it found them; only the bounds of [community_objective] stay as
    the pass last set them. *)
Theorem knockout_step_isolated
    (G fraction : Q) (method : string) (old : nat) (sp : string) (w : World) :
  core_eq (com (after (knockout_step G fraction method old sp) w)) (com w) /\
  contexts (com (after (knockout_step G fraction method old sp) w))
  = contexts (com w).
Proof.
  unfold knockout_step. apply with_model_core.
  pres; auto with pres. apply knockout_solve_track.
Qed.

(** ** How [cooperative_tradeoff] fails *)

Lemma crossovers_app t1 t2 : crossovers (t1 ++ t2) = crossovers t1 ++ crossovers t2.
Proof. unfold crossovers. apply flat_map_app. Qed.

Lemma R_nosolve_refl w : R_nosolve w w.
Proof. exists []. rewrite app_nil_r. repeat split. Qed.

Lemma R_nosolve_trans a b c : R_nosolve a b -> R_nosolve b c -> R_nosolve a c.
Proof.
  intros (t1 & E1 & S1 & C1) (t2 & E2 & S2 & C2). exists (t1 ++ t2).
  rewrite E2, E1, <- app_assoc, solves_app, crossovers_app, S1, S2, C1, C2.
  repeat split.
Qed.

Lemma R_quiet_nosolve w w' : R_quiet w w' -> R_nosolve w w'.
Proof.
  intros (Ht & _). exists []. rewrite app_nil_r. repeat split. exact Ht.
Qed.

Lemma R_kept_refl w : R_kept w w.
Proof.
  intros h rest E. exists []. repeat split; try exact E. intros [].
Qed.

Lemma R_kept_trans a b c : R_kept a b -> R_kept b c -> R_kept a c.
Proof.
  intros Hab Hbc h rest E.
  destruct (Hab h rest E) as (h1 & E1 & C1 & N1 & B1).
  destruct (Hbc (h1 ++ h) rest E1) as (h2 & E2 & C2 & N2 & B2).
  exists (h2 ++ h1). split; [|split; [|split]].
  - rewrite E2. f_equal. apply app_assoc.
  - rewrite undo_all_app.
    eapply core_eq_trans; [apply undo_all_core, C2|exact C1].
  - intros Hin. apply in_app_or in Hin as [Hin|Hin]; contradiction.
  - congruence.
Qed.

Lemma R_model_kept w w' : R_model w w' -> R_kept w w'.
Proof. unfold R_model. intros E h rest Ec. exists []. rewrite E.
  repeat split; try exact Ec. intros [].
Qed.

Lemma model_kept {A} (c : Py A) : preserves R_model c -> preserves R_kept c.
Proof. apply preserves_weaken, R_model_kept. Qed.

Lemma not_in_singleton (u : Undo) :
  u <> UResetMinCommunityGrowth -> ~ In UResetMinCommunityGrowth [u].
Proof. intros Hu [E|[]]. congruence. Qed.

Lemma set_objective_kept e : preserves R_kept (update_model (set_objective e)).
Proof.
  intros w h rest E. exists [USetObjective (objective (com w))].
  unfold after, update_model, set_objective, record_undo; simpl. rewrite E.
  simpl. repeat split. apply not_in_singleton. discriminate.
Qed.

Lemma _apply_min_growth_kept l : preserves R_kept (_apply_min_growth l).
Proof.
  induction l as [|[sp q] rest IH]; cbn [_apply_min_growth].
  - apply preserves_ret, R_kept_refl.
  - intros w. unfold after, get_constraint. rewrite !bind_unfold. cbn [get_model].
    destruct (find_constraint (objective_name sp) (constraints (com w))) as [c|] eqn:F;
      [|apply R_kept_refl].
    cbn [mret Py_ret]. rewrite !bind_unfold. cbn [update_model].
    eapply R_kept_trans; [|apply IH].
    intros h rs E. exists [USetConstraintLb (objective_name sp) (c_lb c)].
    unfold record_undo; simpl. rewrite E. simpl.
    rewrite (set_constraint_lb_restore _ _ _ _ F).
    repeat split. apply not_in_singleton. discriminate.
Qed.

(** Follows an error through a bind. *)
Lemma bind_raise_rel (R : World -> World -> Prop) {A B}
    (c : Py A) (f : A -> Py B) w e w' :
  (forall a b c, R a b -> R b c -> R a c) ->
  preserves R c ->
  (forall a w1, f a w1 = (Raise e, w') -> R w1 w') ->
  (c ≫= f) w = (Raise e, w') -> R w w'.
Proof.
  intros Htrans Hc Hf E. apply bind_raise_inv in E as [E|(a & w1 & E1 & E2)].
  - eapply preserves_run; eassumption.
  - eapply Htrans; [eapply preserves_run; eassumption|eapply Hf, E2].
Qed.

Lemma optimize_with_retry_nosolve msg : preserves R_nosolve (optimize_with_retry msg).
Proof.
  intros w. unfold after, optimize_with_retry. py_run.
  destruct (solver_optimize_with_retry (com w)); py_run;
    exists [EvOptimizeWithRetry (com w) msg]; repeat split.
Qed.

Lemma quiet_nosolve {A} (c : Py A) : preserves R_quiet c -> preserves R_nosolve c.
Proof. apply preserves_weaken, R_quiet_nosolve. Qed.

Lemma tradeoff_sweep_never_raises G fluxes pfba fraction w e w' :
  (results ← tradeoff_loop G fluxes pfba fraction [];
   match results with
   | [(_, sol)] => mret (BareSolution sol)
   | _ => mret (TradeoffTable results)
   end) w <> (Raise e, w').
Proof.
  rewrite bind_unfold.
  destruct (tradeoff_loop_run G fluxes pfba fraction [] w)
    as (rows & t & w1 & -> & _).
  destruct rows as [|[? ?] [|? ?]]; discriminate.
Qed.

(** X5: [cooperative_tradeoff] can fail only before the sweep over the
    fractions: when it raises, no per-fraction solve and no crossover has
    been performed.  A non-optimal solve inside the sweep never makes it
    fail. *)
Theorem cooperative_tradeoff_fails_before_sweep
    (mg : MinGrowthSpec) (fraction : FractionArg) (fluxes pfba : bool)
    (w w' : World) (e : PyError) :
  cooperative_tradeoff mg fraction fluxes pfba w = (Raise e, w') ->
  exists t, trace w' = trace w ++ t /\ solves t = [] /\ crossovers t = [].
Proof.
  unfold cooperative_tradeoff. intros E.
  apply with_model_inv in E as (w2 & E & ->). cbn [trace].
  change (R_nosolve {| com := enter (com w); heap := heap w; trace := trace w |} w2).
  revert E. unfold cooperative_tradeoff_body.
  apply bind_raise_rel; [exact R_nosolve_trans| |intros _ ?].
  { apply quiet_nosolve, same_quiet, check_modification_same. }
  apply bind_raise_rel; [exact R_nosolve_trans| |intros ? ?].
  { apply preserves_get_model, R_nosolve_refl. }
  apply bind_raise_rel; [exact R_nosolve_trans| |intros ? ?].
  { apply quiet_nosolve, same_quiet, _format_min_growth_same. }
  apply bind_raise_rel; [exact R_nosolve_trans| |intros _ ?].
  { apply quiet_nosolve, _apply_min_growth_quiet. }
  apply bind_raise_rel; [exact R_nosolve_trans| |intros _ ?].
  { apply quiet_nosolve, update_quiet. intros m.
    apply co_ub_of_bounds, set_objective_co_bounds. }
  apply bind_raise_rel; [exact R_nosolve_trans| |intros G ?].
  { apply optimize_with_retry_nosolve. }
  cbv zeta.
  apply bind_raise_rel; [exact R_nosolve_trans| |intros _ ?].
  { apply quiet_nosolve, regularize_l2_norm_quiet. }
  intros E. exfalso. exact (tradeoff_sweep_never_raises _ _ _ _ _ _ _ E).
Qed.

Lemma active_variables_raise vs w e w' :
  active_variables vs w = (Raise e, w') -> e = TypeError.
Proof.
  revert w'. induction vs as [|v vs IH]; intros w'; cbn [active_variables];
    [discriminate|].
  destruct (v_ub v), (v_lb v); try (intros [= <- _]; reflexivity).
  intros E. apply bind_raise_inv in E as [E|(a & w1 & _ & E)];
    [eapply IH, E|discriminate].
Qed.

Lemma l2_terms_raise n members : forall l2 w e w',
  l2_terms n members l2 w = (Raise e, w') ->
  e = TypeError \/ e = AttributeError \/ exists k, e = KeyError k.
Proof.
  induction members as [|sp rest IH]; intros l2 w e w'; cbn [l2_terms];
    [discriminate|].
  intros E. apply bind_raise_inv in E as [E|(c & w1 & _ & E)].
  - unfold get_constraint in E. rewrite bind_unfold in E. cbn [get_model] in E.
    destruct (find_constraint _ _); [discriminate|].
    injection E as <- _. right. right. eauto.
  - apply bind_raise_inv in E as [E|(vs & w2 & _ & E)].
    + left. eapply active_variables_raise, E.
    + destruct vs; [injection E as <- _; auto|eapply IH, E].
Qed.

(** The errors of [regularize_l2_norm] are the refusal of its lower bound
    and those of its loop over the members. *)
Lemma regularize_l2_norm_raise min_growth w e w' :
  regularize_l2_norm min_growth w = (Raise e, w') ->
  e = ValueError \/ e = TypeError \/ e = AttributeError \/
  exists k, e = KeyError k.
Proof.
  unfold regularize_l2_norm. intros E.
  apply bind_raise_inv in E as [E|(? & ? & _ & E)].
  { rewrite assign_co_lb_run in E.
    destruct (lb_admitted _ _); [discriminate|]. injection E as <- _. auto. }
  right.
  apply bind_raise_inv in E as [E|(? & ? & _ & E)]; [discriminate|].
  apply bind_raise_inv in E as [E|(? & ? & _ & E)]; [discriminate|].
  apply bind_raise_inv in E as [E|(? & ? & _ & E)]; [eapply l2_terms_raise, E|].
  apply bind_raise_inv in E as [E|(? & ? & _ & E)]; discriminate.
Qed.

Lemma exit_kept (w w2 : World) :
  R_kept {| com := enter (com w); heap := heap w; trace := trace w |} w2 ->
  exit (com w2) = com w.
Proof.
  intros Hk. destruct (Hk [] (contexts (com w)) eq_refl) as (h' & E' & C & N & B).
  rewrite app_nil_r in E'. unfold exit. rewrite E'.
  apply community_ext.
  - eapply core_eq_trans; [|eapply core_eq_trans; [exact C|]].
    + apply undo_all_core. repeat split.
    + repeat split.
  - rewrite undo_all_bounds_keep by exact N.
    cbn [com] in B. etransitivity; [|etransitivity; [exact B|]]; reflexivity.
  - rewrite undo_all_contexts. reflexivity.
Qed.

(** X6: when [cooperative_tradeoff] raises [AlreadyModifiedError] or
    [OptimizationError], the whole model, the bounds of
    [community_objective] included, is exactly what it was before the
    call: these errors arise before the regulariser touches the
    bounds. *)
Theorem cooperative_tradeoff_early_failure_restores
    (mg : MinGrowthSpec) (fraction : FractionArg) (fluxes pfba : bool)
    (w w' : World) (e : PyError) :
  cooperative_tradeoff mg fraction fluxes pfba w = (Raise e, w') ->
  e = AlreadyModifiedError \/ (exists msg, e = OptimizationError msg) ->
  com w' = com w.
Proof.
  unfold cooperative_tradeoff. intros E He.
  apply with_model_inv in E as (w2 & E & ->). cbn [com].
  apply exit_kept. revert E. unfold cooperative_tradeoff_body.
  apply bind_raise_rel; [exact R_kept_trans| |intros _ ?].
  { apply model_kept, check_modification_model. }
  apply bind_raise_rel; [exact R_kept_trans| |intros ? ?].
  { apply preserves_get_model, R_kept_refl. }
  apply bind_raise_rel; [exact R_kept_trans| |intros ? ?].
  { apply model_kept, _format_min_growth_model. }
  apply bind_raise_rel; [exact R_kept_trans| |intros _ ?].
  { apply _apply_min_growth_kept. }
  apply bind_raise_rel; [exact R_kept_trans| |intros _ ?].
  { apply set_objective_kept. }
  apply bind_raise_rel; [exact R_kept_trans| |intros G ?].
  { apply model_kept, optimize_with_retry_model. }
  cbv zeta. intros E. exfalso.
  apply bind_raise_inv in E as [E|(? & ? & _ & E)].
  - apply regularize_l2_norm_raise in E as [->|[->|[->|(k & ->)]]];
      destruct He as [He|(msg & He)]; discriminate.
  - exact (tradeoff_sweep_never_raises _ _ _ _ _ _ _ E).
Qed.

(** ** Scalar and singleton fractions *)

Lemma normalize_fraction_singleton q :
  normalize_fraction (FracSized [q]) = normalize_fraction (FracScalar q).
Proof. reflexivity. Qed.

(** X7: a sequence holding one fraction is treated exactly like that
    fraction given as a scalar: same result, same final model, store and
    log. *)
Theorem cooperative_tradeoff_singleton_as_scalar
    (mg : MinGrowthSpec) (q : Q) (fluxes pfba : bool) (w : World) :
  cooperative_tradeoff mg (FracSized [q]) fluxes pfba w
  = cooperative_tradeoff mg (FracScalar q) fluxes pfba w.
Proof.
  unfold cooperative_tradeoff, cooperative_tradeoff_body.
  apply with_model_ext. intros w1.
  do 6 (apply bind_ext; intros ? ?). cbv zeta.
  rewrite normalize_fraction_singleton. reflexivity.
Qed.

(** ** The knockout of a member *)





(** ** The table of the knockouts *)

Lemma knockout_sweep_empty it G fraction method old diag w :
  iterate it = [] ->
  knockout_sweep it G fraction method old diag w = (Raise (KeyError "medium"), w).
Proof.
  intros E. unfold knockout_sweep. rewrite E. cbn [knockout_loop]. py_run.
  unfold results_table. rewrite E. reflexivity.
Qed.

(** X9: [knockout_species] called with an empty list of species always
    ends in an error, never in a table: if it gets as far as the table,
    the table has no columns and dropping "medium" raises [KeyError]. *)
Theorem knockout_species_empty_raises
    (fraction : Q) (method : string) (progress diag : bool) (w : World) :
  exists e, fst (knockout_species [] fraction method progress diag w) = Raise e.
Proof.
  destruct (knockout_species [] fraction method progress diag w)
    as [[df|e] w'] eqn:E; [exfalso|exists e; reflexivity].
  unfold knockout_species in E.
  apply with_model_inv in E as (w2 & E & _).
  unfold knockout_species_body in E.
  do 7 (apply bind_ok_inv in E as (? & ? & _ & E)). cbv zeta in E.
  rewrite knockout_sweep_empty in E by (destruct progress; reflexivity).
  discriminate.
Qed.

Lemma knockout_loop_length G fraction method old sps : forall results w rs w',
  knockout_loop G fraction method old sps results w = (Ok rs, w') ->
  length rs = length results + length sps.
Proof.
  induction sps as [|sp rest IH]; intros results w rs w'; cbn [knockout_loop].
  - intros [= <- _]. simpl. lia.
  - intros E. apply bind_ok_inv in E as (new & w1 & _ & E).
    apply IH in E. rewrite E, length_app. simpl. lia.
Qed.

Lemma keep_columns_length label columns : forall row,
  length row = length columns ->
  length (keep_columns label columns row)
  = length (List.filter (fun c => negb (String.eqb c label)) columns).
Proof.
  unfold keep_columns.
  induction columns as [|c cs IH]; intros [|x row] Hl; try discriminate;
    [reflexivity|].
  cbn [combine List.filter fst]. injection Hl as Hl.
  destruct (negb (String.eqb c label)); cbn [map length]; rewrite IH by exact Hl;
    reflexivity.
Qed.

Lemma results_table_shape results it w df w' :
  results_table results it w = (Ok df, w') ->
  df_index df = iterate it /\
  length (df_values df) = length results /\
  Forall (fun row => length row = length (df_columns df)) (df_values df) /\
  ~ In "medium" (df_columns df).
Proof.
  intros E. split; [|split; [|split]].
  - unfold results_table, drop_column in E.
    destruct (mem_label _ _); [|discriminate]. injection E as <- _. reflexivity.
  - unfold results_table, drop_column in E.
    destruct (mem_label _ _); [|discriminate]. injection E as <- _.
    cbn [df_values data_frame]. rewrite !length_map. reflexivity.
  - unfold results_table, drop_column in E.
    destruct (mem_label _ _); [|discriminate]. injection E as <- _.
    cbn [df_values df_columns data_frame].
    apply List.Forall_forall. intros row Hin.
    apply in_map_iff in Hin as (row0 & <- & Hin).
    apply in_map_iff in Hin as (s & <- & _).
    apply keep_columns_length. apply length_map.
  - eapply drop_column_absent. exact E.
Qed.

(** X10: the table that [knockout_species] returns has one row per
    requested species, labelled with the species in the order given;
    every row has one cell per column, and no column is "medium". *)
Theorem knockout_species_table_shape
    (species_arg : list string) (fraction : Q) (method : string)
    (progress diag : bool) (w w' : World) (df : DataFrame) :
  knockout_species species_arg fraction method progress diag w = (Ok df, w') ->
  df_index df = species_arg /\
  length (df_values df) = length species_arg /\
  Forall (fun row => length row = length (df_columns df)) (df_values df) /\
  ~ In "medium" (df_columns df).
Proof.
  unfold knockout_species. intros E.
  apply with_model_inv in E as (w2 & E & _).
  unfold knockout_species_body in E.
  do 7 (apply bind_ok_inv in E as (? & ? & _ & E)). cbv zeta in E.
  unfold knockout_sweep in E.
  apply bind_ok_inv in E as (results & w3 & Eloop & E).
  apply bind_ok_inv in E as (ko & w4 & _ & E). cbv zeta in E.
  apply knockout_loop_length in Eloop. simpl in Eloop.
  apply results_table_shape in E as (Hi & Hl & Hr & Hm).
  assert (Hit : iterate (if progress then Tqdm (PyList species_arg) "knockout(s)"
                         else PyList species_arg) = species_arg)
    by (destruct progress; reflexivity).
  rewrite Hit in *. rewrite Hl, Eloop. auto.
Qed.

(** ** The reporting transform and the store *)

(** X11: the reporting transform never changes the reference row [old]
    nor any Series other than [new]; when "change" is requested it changes
    no existing Series at all, [new] included, and the reported row is a
    new object. *)
Theorem report_frame (method : string) (old new : nat) (w : World) :
  old < length (heap w) -> new < length (heap w) ->
  let w' := after (report method old new) w in
  length (heap w) <= length (heap w') /\
  (forall l, l < length (heap w) -> l <> new ->
     deref (heap w') l = deref (heap w) l) /\
  (contains "change" method = true ->
     deref (heap w') new = deref (heap w) new /\
     fst (report method old new w) = Ok (length (heap w))).
Proof.
  intros Ho Hn. unfold after. rewrite (report_run method old new w Ho Hn). cbv zeta.
  destruct (contains "change" method), (contains "relative" method);
    cbn [snd fst heap]; (split; [|split]);
    try (rewrite length_app; simpl; lia);
    try (rewrite length_insert; lia);
    try (intros l Hl _; apply deref_app_l, Hl);
    try (intros _; split; [apply deref_app_l, Hn|reflexivity]);
    try discriminate; try lia; try reflexivity.
  intros l Hl Hne. unfold deref.
  rewrite list_lookup_insert_ne by congruence. reflexivity.
Qed.

(** ** The baseline of the knockouts *)

Lemma R_grows_refl w : R_grows w w.
Proof. exists []. rewrite app_nil_r. reflexivity. Qed.

Lemma R_grows_trans a b c : R_grows a b -> R_grows b c -> R_grows a c.
Proof.
  intros (t1 & E1) (t2 & E2). exists (t1 ++ t2).
  rewrite E2, E1, app_assoc. reflexivity.
Qed.

Ltac rel_side ::=
  first [ exact R_model_refl | exact R_model_trans
        | exact R_track_refl | exact R_track_trans
        | exact R_scoped_refl | exact R_scoped_trans
        | exact R_same_refl | exact R_same_trans
        | exact R_quiet_refl | exact R_quiet_trans
        | exact R_grows_refl | exact R_grows_trans ].

Lemma update_grows f : preserves R_grows (update_model f).
Proof. intros w. exists []. cbn. rewrite app_nil_r. reflexivity. Qed.

Lemma alloc_grows s : preserves R_grows (alloc s).
Proof. intros w. exists []. cbn. rewrite app_nil_r. reflexivity. Qed.

Lemma write_grows l s : preserves R_grows (write l s).
Proof. intros w. exists []. cbn. rewrite app_nil_r. reflexivity. Qed.

Lemma log_grows ev : preserves R_grows (log ev).
Proof. intros w. exists [ev]. reflexivity. Qed.

Lemma with_model_grows {A} (body : Py A) :
  preserves R_grows body -> preserves R_grows (with_model body).
Proof.
  intros Hb w. unfold after, with_model.
  specialize (Hb {| com := enter (com w); heap := heap w; trace := trace w |}).
  unfold after in Hb. destruct (body _) as [r w2]. exact Hb.
Qed.

Lemma knockout_solve_grows G fraction sp :
  preserves R_grows (knockout_solve G fraction sp).
Proof.
  unfold knockout_solve.
  pres; try apply update_grows.
  - apply with_model_grows. pres; [apply update_grows|].
    unfold optimize_with_retry. pres; [apply log_grows|].
    destruct (solver_optimize_with_retry _); pres.
  - unfold optimize, new_solution. pres; [apply alloc_grows|apply log_grows].
  - destruct (negb _); pres; try apply update_grows.
    unfold crossover, new_solution. pres; [apply alloc_grows|apply log_grows].
Qed.

Lemma knockout_step_grows G fraction method old sp :
  preserves R_grows (knockout_step G fraction method old sp).
Proof.
  unfold knockout_step. apply with_model_grows. pres.
  - apply knockout_solve_grows.
  - unfold report. pres.
    + destruct (contains "change" method); pres. apply alloc_grows.
    + destruct (contains "relative" method); pres. apply write_grows.
Qed.

Lemma knockout_sweep_grows it G fraction method old diag :
  preserves R_grows (knockout_sweep it G fraction method old diag).
Proof.
  assert (Hloop : forall sps results,
             preserves R_grows (knockout_loop G fraction method old sps results)).
  { induction sps as [|sp rest IH]; intros results; cbn [knockout_loop]; pres.
    - apply knockout_step_grows.
    - apply IH. }
  assert (Htab : forall results, preserves R_grows (results_table results it)).
  { intros results w. unfold after, results_table, drop_column.
    destruct (mem_label _ _); apply R_grows_refl. }
  unfold knockout_sweep. pres; [apply Hloop|apply Htab|apply Htab].
Qed.

Lemma _apply_min_growth_objective l : forall w,
  objective (com (after (_apply_min_growth l) w)) = objective (com w) /\
  co_lb (com (after (_apply_min_growth l) w)) = co_lb (com w).
Proof.
  induction l as [|[sp q] rest IH]; intros w; cbn [_apply_min_growth];
    [split; reflexivity|].
  unfold after, get_constraint. rewrite !bind_unfold. cbn [get_model].
  destruct (find_constraint (objective_name sp) (constraints (com w))) as [c|];
    [|split; reflexivity].
  cbn [mret Py_ret]. rewrite !bind_unfold. cbn [update_model].
  match goal with |- context [_apply_min_growth rest ?w1] =>
    destruct (IH w1) as [IH1 IH2]; unfold after in IH1, IH2;
    rewrite IH1, IH2 end.
  cbn [com set_constraints objective co_lb].
  rewrite record_undo_objective.
  pose proof (record_undo_co_bounds
                (USetConstraintLb (objective_name sp) (c_lb c)) (com w)) as Hb.
  injection Hb as Hlb _. rewrite Hlb. split; reflexivity.
Qed.

Lemma regularize_l2_norm_ok min_growth w u w' :
  regularize_l2_norm min_growth w = (Ok u, w') ->
  co_lb (com w') = Some min_growth /\
  modification (com w') = Some "l2 norm" /\
  co_ub (com w') = co_ub (com w) /\
  trace w' = trace w.
Proof.
  intros E.
  pose proof (preserves_run _ _ _ _ _ (regularize_l2_norm_quiet _) E)
    as (Ht & _ & Hu).
  unfold regularize_l2_norm in E.
  apply bind_ok_inv in E as (? & w1 & E1 & E).
  rewrite assign_co_lb_run in E1.
  destruct (lb_admitted min_growth (com w)); [|discriminate].
  injection E1 as _ <-.
  apply bind_ok_inv in E as (? & w2 & E2 & E). injection E2 as _ <-.
  apply bind_ok_inv in E as (m & w3 & E3 & E). injection E3 as <- <-.
  apply bind_ok_inv in E as (l2 & w4 & E4 & E).
  pose proof (preserves_run _ _ _ _ _ (l2_terms_same _ _ _) E4) as Hs.
  unfold R_same in Hs. subst w4.
  apply bind_ok_inv in E as (? & w5 & E5 & E). injection E5 as _ <-.
  injection E as _ <-. cbn [com].
  pose proof (set_modification_co_bounds (Some "l2 norm")
    (set_objective (ENeg l2) (record_undo UResetMinCommunityGrowth
       (set_co_lb (Some min_growth) (com w))))) as Hb.
  rewrite set_objective_co_bounds, record_undo_co_bounds in Hb.
  injection Hb as Hlb Hub.
  repeat split; assumption.
Qed.

(** X12: [knockout_species] finds its baseline growth rate [C0] with a
    minimum growth of zero for every member and with the objective and
    the bounds of [community_objective] the model came with (it installs
    no objective of its own first); the reference row then comes from a
    solve with the regulariser installed and the lower bound
    [fraction * C0]. *)
Theorem knockout_species_baseline
    (species_arg : list string) (fraction : Q) (method : string)
    (progress diag : bool) (w w' : World) (df : DataFrame) :
  knockout_species species_arg fraction method progress diag w = (Ok df, w') ->
  exists m0 C0 m1 sol t,
    trace w' = trace w ++
      EvOptimizeWithRetry m0 "could not get community growth rate."
      :: EvOptimize m1 sol :: t /\
    solver_optimize_with_retry m0 = Some C0 /\
    objective m0 = objective (com w) /\
    co_bounds m0 = co_bounds (com w) /\
    (forall sp, In sp (species (com w)) -> member_lower_bound m0 sp = Some 0%Q) /\
    co_lb m1 = Some (fraction * C0)%Q /\
    co_ub m1 = co_ub (com w) /\
    modification m1 = Some "l2 norm".
Proof.
  unfold knockout_species. intros E.
  apply with_model_inv in E as (w2 & E & ->). cbn [trace].
  unfold knockout_species_body in E.
  apply bind_ok_inv in E as (u & wa & Echeck & E).
  apply bind_ok_inv in E as (m & wb & Eget & E).
  apply bind_ok_inv in E as (mgl & wc & Efmt & E).
  apply bind_ok_inv in E as (u2 & wd & Eapp & E).
  apply bind_ok_inv in E as (C0 & we & Eowr & E).
  apply bind_ok_inv in E as (u4 & wf & Ereg & E).
  apply bind_ok_inv in E as (sol & wg & Eopt & E). cbv zeta in E.
  pose proof (preserves_run _ _ _ _ _ check_modification_same Echeck) as Hwa.
  unfold R_same in Hwa. subst wa.
  injection Eget as <- <-.
  apply _format_min_growth_inv in Efmt as (-> & -> & _).
  pose proof (preserves_run _ _ _ _ _ (_apply_min_growth_quiet _) Eapp)
    as (Ht1 & _ & Hu1).
  destruct u2.
  pose proof (_apply_min_growth_lower_bounds
                (fun sp => default 0%Q (min_growth_of (MGScalar 0) sp)) _ _ _ Eapp)
    as Hlb.
  pose proof (_apply_min_growth_objective
                (map (fun sp => (sp, default 0%Q (min_growth_of (MGScalar 0) sp)))
                     (species (enter (com w))))
                {| com := enter (com w); heap := heap w; trace := trace w |})
    as [Hobj Hlb0].
  unfold after in Hobj, Hlb0. rewrite Eapp in Hobj, Hlb0. cbn [snd com] in Hobj, Hlb0.
  apply optimize_with_retry_inv in Eowr as (HC0 & ->).
  apply regularize_l2_norm_ok in Ereg as (Hrlb & Hrmod & Hrub & Hrt).
  cbn [com trace] in *.
  unfold optimize, new_solution in Eopt. revert Eopt. py_run. intros Eopt.
  injection Eopt as <- <-.
  pose proof (preserves_run _ _ _ _ _ (knockout_sweep_grows _ _ _ _ _ _) E)
    as (t & Ht).
  cbn [trace] in Ht.
  exists (com wd), C0, (com wf), {| status := sr_status (solver_optimize (com wf));
                                   members_growth_rate := length (heap wf) |}, t.
  split; [|split; [exact HC0|split; [exact Hobj|split; [|split; [|auto]]]]].
  - rewrite Ht, Hrt, Ht1, <- !app_assoc. reflexivity.
  - unfold co_bounds. rewrite Hlb0, Hu1. reflexivity.
  - intros sp Hsp. destruct (Hlb sp) as [H1 _]. apply H1, Hsp.
  - split; [exact Hrlb|]. split; [|exact Hrmod]. rewrite Hrub. exact Hu1.
Qed.

End Properties.

(** * Concrete runs *)

Lemma toy_l2_ready : l2_ready toy_community.
Proof.
  unfold l2_ready, members_ready. cbn [species toy_community constraints].
  repeat constructor.
  - exists (toy_constraint "A"). repeat split. vm_compute. discriminate.
  - exists (toy_constraint "B"). repeat split. vm_compute. discriminate.
Qed.

(** Witness of C7: the regulariser on the toy community, and its refusal
    on the capped one. *)
Lemma regularize_l2_norm_spec_witness :
  (exists w',
     regularize_l2_norm (1 # 2) toy_world = (Ok tt, w') /\
     co_lb (com w') = Some (1 # 2) /\
     (forall rho, (eval rho (objective (com w')) == - spec_l2_sum rho toy_community)%Q) /\
     modification (com w') = Some "l2 norm" /\
     co_ub (com w') = co_ub toy_community /\
     heap w' = [] /\ trace w' = []) /\
  regularize_l2_norm 2 toy_world_capped = (Raise ValueError, toy_world_capped).
Proof.
  split.
  - apply (regularize_l2_norm_spec (1 # 2) toy_world);
      [reflexivity|exact toy_l2_ready].
  - apply (regularize_l2_norm_spec 2 toy_world_capped). reflexivity.
Defined.

(** Counterexample to C7 as stated: on the pinned toy community, where
    every member has its objective constraint, the call stops with
    [AttributeError] and assigns neither the objective nor the marker; on
    the capped toy community with [min_growth] 2 it stops with
    [ValueError] and the lower bound stays 0. *)
Lemma regularize_l2_norm_raises_on_valid_models :
  (exists w',
     regularize_l2_norm (1 # 2) toy_world_pinned = (Raise AttributeError, w') /\
     objective (com w') = community_objective_expr /\
     modification (com w') = None) /\
  (exists w',
     regularize_l2_norm 2 toy_world_capped = (Raise ValueError, w') /\
     co_lb (com w') = Some 0%Q /\
     objective (com w') = community_objective_expr /\
     modification (com w') = None).
Proof.
  split; eexists; (split; [vm_compute; reflexivity|]); repeat split.
Qed.

(** Witness of C8: the drivers on the toy model with a marker. *)
Lemma drivers_reject_modified_model_witness :
  cooperative_tradeoff (S := toy_solver) (MGScalar 0) (FracScalar 1) false false
    toy_world_modified = (Raise AlreadyModifiedError, toy_world_modified) /\
  knockout_species (S := toy_solver) ["A"; "B"] 1 "change" false true
    toy_world_modified = (Raise AlreadyModifiedError, toy_world_modified).
Proof.
  apply (drivers_reject_modified_model (S := toy_solver)). simpl. discriminate.
Defined.


(** The scenario of the reporting transform with "relative" alone. *)
Example report_relative_scenario :
  exists a b,
    series_div (deref (heap scenario_world) 1) (deref (heap scenario_world) 0)
    = [("A", Fin a); ("B", Fin b)] /\ (a == 0)%Q /\ (b == 5 # 6)%Q.
Proof. eexists _, _. split; [vm_compute; reflexivity|]. split; reflexivity. Qed.

(** Counterexample to C2 as stated: a one-element sequence of fractions
    yields a bare Solution, not a table with one row. *)
Lemma cooperative_tradeoff_singleton_sequence_bare :
  ~ exists rows,
      fst (cooperative_tradeoff (S := toy_solver) (MGScalar 0)
             (FracSized [(1 # 2)%Q]) false false toy_world)
      = Ok (TradeoffTable rows).
Proof. intros (rows & E). vm_compute in E. discriminate. Qed.

(** Witness of C2: two fractions, given in ascending order. *)
Lemma cooperative_tradeoff_result_shape_witness :
  exists r w',
    cooperative_tradeoff (S := toy_solver) (MGScalar 0)
      (FracSized [(1 # 2)%Q; 1%Q]) false false toy_world = (Ok r, w') /\
    exists rows,
      r = TradeoffTable rows /\ length rows = 2 /\
      Permutation (map fst rows) [(1 # 2)%Q; 1%Q] /\ descending (map fst rows).
Proof.
  destruct (cooperative_tradeoff (S := toy_solver) (MGScalar 0)
              (FracSized [(1 # 2)%Q; 1%Q]) false false toy_world)
    as [[r|e] w'] eqn:E.
  - exists r, w'. split; [reflexivity|].
    exact (cooperative_tradeoff_result_shape (S := toy_solver) _ _ _ _ _ _ _ E).
  - vm_compute in E. discriminate.
Defined.



(** Counterexample to C4 as stated: with a minimum growth of 1/2 per
    member, the baseline growth rate is computed on a model whose members
    have the lower bound 1/2, not zero. *)
Lemma tradeoff_baseline_not_zero_min_growth :
  exists m0 msg t,
    trace (snd (cooperative_tradeoff (S := toy_solver) (MGScalar (1 # 2))
                  (FracScalar 1) false false toy_world))
    = EvOptimizeWithRetry m0 msg :: t /\
    member_lower_bound m0 "A" = Some (1 # 2)%Q /\
    ~ (1 # 2 == 0)%Q.
Proof.
  eexists _, _, _. split; [vm_compute; reflexivity|].
  split; [reflexivity|]. discriminate.
Qed.

(** Witness of C4: two fractions on the toy model with a minimum growth
    of 1/2 per member. *)
Lemma tradeoff_lower_bounds_witness :
  exists m0 G t,
    trace (snd (cooperative_tradeoff (S := toy_solver) (MGScalar (1 # 2))
                  (FracSized [(1 # 2)%Q; (1 # 4)%Q]) false false toy_world))
    = EvOptimizeWithRetry m0 "could not get community growth rate." :: t /\
    solver_optimize_with_retry (Solver := toy_solver) m0 = Some G /\
    map co_lb (solves t) = [Some ((1 # 2) * G)%Q; Some ((1 # 4) * G)%Q] /\
    Forall (fun m => co_ub m = None) (solves_before_recovery t).
Proof.
  destruct (cooperative_tradeoff (S := toy_solver) (MGScalar (1 # 2))
              (FracSized [(1 # 2)%Q; (1 # 4)%Q]) false false toy_world)
    as [[r|e] w'] eqn:E.
  - destruct (tradeoff_lower_bounds (S := toy_solver) _ _ _ _ _ _ _ E)
      as (m0 & G & t & Ht & HG & _ & _ & Hlb & Hub).
    exists m0, G, t. cbn [snd]. auto.
  - vm_compute in E. discriminate.
Defined.

(** Counterexample to C5 as stated: a model that comes with the lower
    bound 1/2 on [community_objective] leaves [cooperative_tradeoff] with
    the lower bound 0. *)
Lemma cooperative_tradeoff_resets_caller_bound :
  co_lb (com toy_world_bounded) = Some (1 # 2)%Q /\
  co_lb (com (snd (cooperative_tradeoff (S := toy_solver) (MGScalar 0)
                     (FracScalar (1 # 2)) false false toy_world_bounded)))
  = Some 0%Q /\
  com (snd (cooperative_tradeoff (S := toy_solver) (MGScalar 0)
              (FracScalar (1 # 2)) false false toy_world_bounded))
  <> com toy_world_bounded.
Proof.
  split; [reflexivity|]. split; [vm_compute; reflexivity|].
  intros E. apply (f_equal co_lb) in E. vm_compute in E. discriminate.
Qed.

(** C1 (the code departs from the claim): with [diag=False] the table that
    [knockout_species] returns for the knockouts of A and B on the toy
    model has numbers, not NaN, on its diagonal. *)
Theorem knockout_species_diagonal_not_nan :
  exists df a b,
    fst (knockout_species (S := toy_solver) ["A"; "B"] (1 # 2) "" false false
           toy_world) = Ok df /\
    df_index df = ["A"; "B"] /\ df_columns df = ["A"; "B"] /\
    df_cell df "A" "A" = Some (Fin a) /\ df_cell df "B" "B" = Some (Fin b) /\
    is_nan (Fin a) = false /\ is_nan (Fin b) = false /\
    df_cell (fill_diagonal NaN df) "A" "A" = Some NaN.
Proof.
  eexists _, _, _. split; [vm_compute; reflexivity|].
  repeat split; vm_compute; reflexivity.
Qed.

(** C9 (the code departs from the claim): with the method "relative" the
    growth rates of the Solution that [com.optimize()] returned for the
    knockout of A are overwritten in place by their ratio to the reference
    row. *)
Theorem knockout_species_relative_mutates_solution :
  let w' := snd (knockout_species (S := toy_solver) ["A"] (1 # 2) "relative"
                   false true toy_world) in
  exists m sol x y,
    In (EvOptimize m sol) (trace w') /\
    series_get "B" (sr_growth_rate (solver_optimize (Solver := toy_solver) m))
      = Some (Fin x) /\
    series_get "B" (deref (heap w') (members_growth_rate sol)) = Some (Fin y) /\
    ~ (x == y)%Q.
Proof.
  cbv zeta. eexists _, _, _, _. split.
  - vm_compute. do 3 right. left. reflexivity.
  - split; [vm_compute; reflexivity|]. split; [vm_compute; reflexivity|].
    vm_compute. discriminate.
Qed.

(** Witness of X1: in the pinned toy community the loop passes A and
    stops at B with [AttributeError]. *)
Lemma regularize_l2_norm_failure_witness :
  exists w',
    regularize_l2_norm (1 # 2)
      {| com := toy_community_pinned; heap := []; trace := [] |}
    = (Raise AttributeError, w') /\
    co_lb (com w') = Some (1 # 2)%Q /\
    objective (com w') = community_objective_expr /\
    modification (com w') = None.
Proof.
  destruct (regularize_l2_norm_failure (1 # 2)
              {| com := toy_community_pinned; heap := []; trace := [] |}
              ["A"] "B" [] AttributeError)
    as (w' & E & Hlb & _ & Hobj & Hmod & _).
  - reflexivity.
  - reflexivity.
  - repeat constructor. exists (toy_constraint "A").
    repeat split. vm_compute. discriminate.
  - reflexivity.
  - exists w'. auto.
Defined.

(** Witness of X2: a block around the regulariser on the bounded toy
    model, and around a refused one on the capped toy model. *)
Lemma regularize_l2_norm_scope_exit_witness :
  com (after (with_model (regularize_l2_norm (3 # 4))) toy_world_bounded)
  = toy_community /\
  with_model (regularize_l2_norm 2) toy_world_capped
  = (Raise ValueError, toy_world_capped).
Proof.
  split.
  - rewrite (proj1 (regularize_l2_norm_scope_exit (3 # 4) toy_world_bounded));
      reflexivity.
  - apply (regularize_l2_norm_scope_exit 2 toy_world_capped). reflexivity.
Defined.

(** Witness of X3 on the toy model. *)
Lemma regularize_l2_norm_blocks_drivers_witness :
  cooperative_tradeoff (S := toy_solver) (MGScalar 0) (FracScalar 1) false false
    toy_world_regularized = (Raise AlreadyModifiedError, toy_world_regularized) /\
  knockout_species (S := toy_solver) ["A"] 1 "" false true
    toy_world_regularized = (Raise AlreadyModifiedError, toy_world_regularized).
Proof.
  apply (regularize_l2_norm_blocks_drivers (S := toy_solver) (1 # 2) toy_world).
  vm_compute. reflexivity.
Defined.

(** Witness of X5: the optimizer fails, nothing is solved. *)
Lemma cooperative_tradeoff_fails_before_sweep_witness :
  exists t,
    trace (snd (cooperative_tradeoff (S := failing_solver) (MGScalar 0)
                  (FracSized [(1 # 2)%Q; 1%Q]) false false toy_world))
    = [] ++ t /\ solves t = [] /\ crossovers t = [].
Proof.
  destruct (cooperative_tradeoff (S := failing_solver) (MGScalar 0)
              (FracSized [(1 # 2)%Q; 1%Q]) false false toy_world)
    as [[r|e] w'] eqn:E.
  - vm_compute in E. discriminate.
  - exact (cooperative_tradeoff_fails_before_sweep (S := failing_solver)
             _ _ _ _ _ _ _ E).
Defined.

(** Witness of X6: after the optimizer's failure the model is the one
    from before, the caller's bound included. *)
Lemma cooperative_tradeoff_early_failure_restores_witness :
  com (snd (cooperative_tradeoff (S := failing_solver) (MGScalar 0)
              (FracScalar 1) false false toy_world_bounded))
  = com toy_world_bounded.
Proof.
  destruct (cooperative_tradeoff (S := failing_solver) (MGScalar 0)
              (FracScalar 1) false false toy_world_bounded)
    as [[r|e] w'] eqn:E.
  - vm_compute in E. discriminate.
  - apply (cooperative_tradeoff_early_failure_restores (S := failing_solver)
             _ _ _ _ _ _ _ E).
    right. vm_compute in E. injection E as <- _. eauto.
Defined.

(** Witness of X10 on the toy model. *)
Lemma knockout_species_table_shape_witness :
  exists df w',
    knockout_species (S := toy_solver) ["B"; "A"] (1 # 2) "change" true true
      toy_world = (Ok df, w') /\
    df_index df = ["B"; "A"] /\ length (df_values df) = 2 /\
    ~ In "medium" (df_columns df).
Proof.
  destruct (knockout_species (S := toy_solver) ["B"; "A"] (1 # 2) "change" true
              true toy_world) as [[df|e] w'] eqn:E.
  - exists df, w'. split; [reflexivity|].
    destruct (knockout_species_table_shape (S := toy_solver) _ _ _ _ _ _ _ _ E)
      as (Hi & Hl & _ & Hm). auto.
  - vm_compute in E. discriminate.
Defined.

(** Witness of X11 on the rows of the scenario. *)
Lemma report_frame_witness :
  deref (heap (after (report "relative" 0 1) scenario_world)) 0
  = deref (heap scenario_world) 0.
Proof.
  destruct (report_frame "relative" 0 1 scenario_world) as (_ & H & _).
  - simpl. lia.
  - simpl. lia.
  - apply H; simpl; lia.
Defined.

(** Witness of X12 on the toy model. *)
Lemma knockout_species_baseline_witness :
  exists m0 C0 m1,
    solver_optimize_with_retry (Solver := toy_solver) m0 = Some C0 /\
    objective m0 = objective toy_community /\
    member_lower_bound m0 "A" = Some 0%Q /\
    co_lb m1 = Some ((1 # 2) * C0)%Q /\
    modification m1 = Some "l2 norm".
Proof.
  destruct (knockout_species (S := toy_solver) ["A"] (1 # 2) "" false true
              toy_world) as [[df|e] w'] eqn:E.
  - destruct (knockout_species_baseline (S := toy_solver) _ _ _ _ _ _ _ _ E)
      as (m0 & C0 & m1 & sol & t & _ & HC & Hobj & _ & Hlb & Hlb1 & _ & Hmod).
    exists m0, C0, m1. repeat split; try assumption.
    apply Hlb. left. reflexivity.
  - vm_compute in E. discriminate.
Defined.
